(** * SuggestiveFilter: the tag/suggestion logic of [src/FuzzySearch.tsx]

    A shallow embedding of the [FuzzySearch] React component: its tag store
    (a JavaScript [Map] in insertion order), the suggestion engine, the commit
    and removal handlers, the highlight index and the filter effect, followed
    by the properties of the specification stated over these definitions.

    Modelling conventions.
    - A JavaScript string is a [string]; [toLowerCase] lowers the ASCII
      letters, [includes] and [startsWith] are substring and prefix tests.
    - A record of the dataset is a JavaScript object: its own properties in
      insertion order, as an association list.  [HttpLog_typed] says that an
      object has the five fields of the [HttpLog] interface at their types.
      A number is an integer, which [toString] prints in decimal.
    - An expression that throws ([Object.keys(undefined)], a method call on
      [undefined]) evaluates to [TypeError]; everything else to [Ok].
    - The four [useState] cells form the [State].  A handler runs against
      the values of the last render ([View]); then the component renders
      again and its two effects run ([settle]).  A render or an effect that
      throws unmounts the component, so no state follows it. *)

From Stdlib Require Import List String Ascii ZArith Bool Lia Arith.
From Stdlib Require Import DecimalString.
Import ListNotations.
Local Open Scope string_scope.
Local Open Scope list_scope.
Local Open Scope Z_scope.

(** ** Results of expressions that may throw *)

Inductive result (A : Type) : Type :=
| Ok (a : A)
| TypeError.
Arguments Ok {A} a.
Arguments TypeError {A}.

Definition bind {A B : Type} (r : result A) (k : A -> result B) : result B :=
  match r with
  | Ok a => k a
  | TypeError => TypeError
  end.

Notation "x <- c1 ;; c2" := (bind c1 (fun x => c2))
  (at level 61, c1 at next level, right associativity).

(** ** Strings *)

Module Js.

Definition lower_ascii (c : ascii) : ascii :=
  let n := nat_of_ascii c in
  if (Nat.leb 65 n && Nat.leb n 90)%bool then ascii_of_nat (n + 32) else c.

(** [s.toLowerCase()] *)
Fixpoint toLowerCase (s : string) : string :=
  match s with
  | EmptyString => EmptyString
  | String c rest => String (lower_ascii c) (toLowerCase rest)
  end.

(** [s.startsWith(p)] *)
Definition startsWith (s p : string) : bool := String.prefix p s.

(** [s.includes(t)] *)
Fixpoint includes (s t : string) : bool :=
  if String.prefix t s then true
  else match s with
       | EmptyString => false
       | String _ rest => includes rest t
       end.

(** Truthiness of a value of type [string | null | undefined]. *)
Definition truthy (o : option string) : bool :=
  match o with
  | Some s => negb (s =? "")%string
  | None => false
  end.

(** [ToString] of a value of type [string | undefined], as applied by
    [startsWith] to its argument. *)
Definition ToString (o : option string) : string :=
  match o with
  | Some s => s
  | None => "undefined"
  end.

(** [arr[i]] for a numeric index: [undefined] outside the array. *)
Definition index {A : Type} (arr : list A) (i : Z) : option A :=
  if i <? 0 then None else nth_error arr (Z.to_nat i).

(** [arr.length] *)
Definition length {A : Type} (arr : list A) : Z := Z.of_nat (List.length arr).

(** [new Set(iterable)] followed by [Array.from]: each element is added
    unless it is already a member; iteration is in insertion order. *)
Definition Set_add (s : list string) (x : string) : list string :=
  if existsb (String.eqb x) s then s else s ++ [x].

Definition Set_from (l : list string) : list string :=
  fold_left Set_add l [].

End Js.

(** ** Records of the dataset *)

(** A field value of a record: a string, or a number (an integer, printed
    in decimal by [toString]). *)
Inductive Value : Type :=
| VStr (s : string)
| VNum (n : Z).

Definition Value_toString (v : Value) : string :=
  match v with
  | VStr s => s
  | VNum n => NilZero.string_of_int (Z.to_int n)
  end.

(** A JavaScript object: its own properties, in insertion order. *)
Definition HttpLog : Type := list (string * Value).

(** [item[key]]: [None] is [undefined]. *)
Fixpoint get (item : HttpLog) (key : string) : option Value :=
  match item with
  | [] => None
  | (k, v) :: rest => if (k =? key)%string then Some v else get rest key
  end.

(** [Object.keys(item)] *)
Definition Object_keys (item : HttpLog) : list string := map fst item.

(** The [HttpLog] interface of [types.ts]. *)
Definition is_method (s : string) : bool :=
  existsb (String.eqb s) ["GET"; "POST"; "PUT"; "DELETE"; "PATCH"].

Definition HttpLog_fields : list string :=
  ["method"; "path"; "statusCode"; "id"; "domain"].

Definition HttpLog_typed (item : HttpLog) : Prop :=
  (exists m, get item "method" = Some (VStr m) /\ is_method m = true) /\
  (exists p, get item "path" = Some (VStr p)) /\
  (exists n, get item "statusCode" = Some (VNum n)) /\
  (exists i, get item "id" = Some (VStr i)) /\
  (exists d, get item "domain" = Some (VStr d)).

(** ** The tag store: [Map<string, string | null>] *)

(** The entries in insertion order; [None] is [null], the pending value. *)
Definition TagMap : Type := list (string * option string).

Module Map.

Definition keys (m : TagMap) : list string := map fst m.

(** [m.has(k)] *)
Definition has (m : TagMap) (k : string) : bool :=
  existsb (fun e => (fst e =? k)%string) m.

(** [m.get(k)] *)
Fixpoint lookup (m : TagMap) (k : string) : option (option string) :=
  match m with
  | [] => None
  | (k', v) :: rest => if (k' =? k)%string then Some v else lookup rest k
  end.

(** [m.set(k, v)]: an existing key keeps its place, a new key is appended. *)
Fixpoint set (m : TagMap) (k : string) (v : option string) : TagMap :=
  match m with
  | [] => [(k, v)]
  | (k', v') :: rest =>
      if (k' =? k)%string then (k, v) :: rest else (k', v') :: set rest k v
  end.

(** [m.delete(k)] *)
Fixpoint delete (m : TagMap) (k : string) : TagMap :=
  match m with
  | [] => []
  | (k', v') :: rest =>
      if (k' =? k)%string then rest else (k', v') :: delete rest k
  end.

(** A [Map] holds each key once. *)
Definition wf (m : TagMap) : Prop := NoDup (keys m).

End Map.

(** ** Array methods whose callback may throw *)

Fixpoint Array_filter {A : Type} (f : A -> result bool) (arr : list A)
  : result (list A) :=
  match arr with
  | [] => Ok []
  | x :: rest =>
      b <- f x ;;
      rest' <- Array_filter f rest ;;
      Ok (if b : bool then x :: rest' else rest')
  end.

Fixpoint Array_map {A B : Type} (f : A -> result B) (arr : list A)
  : result (list B) :=
  match arr with
  | [] => Ok []
  | x :: rest =>
      y <- f x ;;
      rest' <- Array_map f rest ;;
      Ok (y :: rest')
  end.

(** [arr.pop()] on a fresh copy: the last element, [undefined] when empty. *)
Fixpoint Array_last {A : Type} (arr : list A) : option A :=
  match arr with
  | [] => None
  | x :: rest =>
      match rest with
      | [] => Some x
      | _ :: _ => Array_last rest
      end
  end.

(** ** The component *)

(** [s.toString()] where [s] is [item[tagKey]]: throws on [undefined]. *)
Definition toString (s : option Value) : result string :=
  match s with
  | Some v => Ok (Value_toString v)
  | None => TypeError
  end.

Definition getSuggestions (data : list HttpLog) (tagKey inputValue : string)
  : result (list string) :=
  kept <- Array_filter
            (fun s =>
               str <- toString s ;;
               Ok (Js.includes (Js.toLowerCase str) (Js.toLowerCase inputValue)))
            (map (fun i => get i tagKey) data) ;;
  strs <- Array_map toString kept ;;
  Ok (Js.Set_from strs).

Record State : Type := mkState {
  inputValue : string;
  tags : TagMap;
  showSuggestions : bool;
  highlightedSuggestion : Z
}.

Definition initialState : State := mkState "" [] false 0.

Definition is_null (v : option string) : bool :=
  match v with
  | None => true
  | Some _ => false
  end.

(** The key of the first entry whose value is [null], else [undefined]. *)
Definition incompleteTag (tags : TagMap) : option string :=
  match find (fun e => is_null (snd e)) tags with
  | Some (key, _) => Some key
  | None => None
  end.

(** [Object.keys(data[0])]: throws when the dataset is empty. *)
Definition dataKeys (data : list HttpLog) : result (list string) :=
  match data with
  | [] => TypeError
  | first :: _ => Ok (Object_keys first)
  end.

Definition getMatchingKeys (dataKeys : list string) (tags : TagMap)
  (input : string) : list string :=
  filter (fun k => Js.startsWith k input && negb (Map.has tags k)) dataKeys.

Definition suggestions (data : list HttpLog) (dataKeys : list string)
  (tags : TagMap) (inputValue : string) : result (list string) :=
  if negb (Js.truthy (incompleteTag tags)) then
    pathSuggestions <-
      (if negb (Map.has tags "path")
       then getSuggestions data "path" inputValue
       else Ok []) ;;
    if Js.length pathSuggestions >? 0 then Ok pathSuggestions
    else Ok (getMatchingKeys dataKeys tags inputValue)
  else
    getSuggestions data (Js.ToString (incompleteTag tags)) inputValue.

(** The effect that keeps the highlight below the length of the list. *)
Definition clampHighlight (suggestions : list string) (highlighted : Z) : Z :=
  if highlighted >=? Js.length suggestions
  then Js.length suggestions - 1
  else highlighted.

(** The loop over [tags.entries()] of the filter callback: [Ok false] is
    its [return false], [Ok true] its normal completion. *)
Fixpoint tagsLoop (item : HttpLog) (entries : TagMap) : result bool :=
  match entries with
  | [] => Ok true
  | (key, value) :: rest =>
      if negb (Js.truthy value) then tagsLoop item rest
      else
        str <- toString (get item key) ;;
        if negb (str =? Js.ToString value)%string then Ok false
        else tagsLoop item rest
  end.

(** [item.path.includes(inputValue)] *)
Definition pathIncludes (item : HttpLog) (inputValue : string) : result bool :=
  match get item "path" with
  | Some (VStr p) => Ok (Js.includes p inputValue)
  | _ => TypeError
  end.

Definition filterCallback (dataKeys : list string) (tags : TagMap)
  (inputValue : string) (item : HttpLog) : result bool :=
  completed <- tagsLoop item tags ;;
  if completed : bool then
    let isSelectingTag :=
      existsb (fun key => Js.startsWith key inputValue && negb (Map.has tags key))
        dataKeys in
    if (Z.of_nat (String.length inputValue) >? 0) && negb isSelectingTag
    then pathIncludes item inputValue
    else Ok true
  else Ok false.

(** The argument the filter effect passes to [onChange]. *)
Definition filterResults (data : list HttpLog) (dataKeys : list string)
  (tags : TagMap) (inputValue : string) : result (list HttpLog) :=
  Array_filter (filterCallback dataKeys tags inputValue) data.

Inductive Direction : Type := up | down.

Definition changeHighlightedSuggestion (suggestions : list string)
  (direction : Direction) (prev : Z) : Z :=
  match direction with
  | up => if prev >? 0 then prev - 1 else prev
  | down => if prev <? Js.length suggestions - 1 then prev + 1 else prev
  end.

Definition setTag (tags : TagMap) (tagKey : string) (tagValue : option string)
  : TagMap :=
  Map.set tags tagKey tagValue.

(** [suggestion || suggestions[highlightedSuggestion]?.toString()] *)
Definition selectedSuggestion (suggestions : list string) (highlighted : Z)
  (suggestion : option string) : option string :=
  if Js.truthy suggestion then suggestion
  else Js.index suggestions highlighted.

Definition selectSuggestion (dataKeys : list string) (suggestions : list string)
  (st : State) (suggestion : option string) : State :=
  let selected := selectedSuggestion suggestions (highlightedSuggestion st) suggestion in
  let isTag :=
    Js.length (getMatchingKeys dataKeys (tags st) (Js.ToString selected)) >? 0 in
  if Js.truthy selected then
    let newTags :=
      if Js.truthy (incompleteTag (tags st))
      then setTag (tags st) (Js.ToString (incompleteTag (tags st))) selected
      else if isTag
           then setTag (tags st) (Js.ToString selected) None
           else setTag (tags st) "path" selected in
    mkState "" newTags (showSuggestions st) 0
  else st.

Definition removeLastTagSection (tags : TagMap) : TagMap :=
  if negb (Js.truthy (incompleteTag tags)) then
    match Array_last tags with
    | Some lastTag => setTag tags (fst lastTag) None
    | None => tags
    end
  else Map.delete tags (Js.ToString (incompleteTag tags)).

(** *** One render of the component *)

Record View : Type := mkView {
  viewKeys : list string;
  viewSuggestions : list string
}.

Definition render (data : list HttpLog) (st : State) : result View :=
  keys <- dataKeys data ;;
  sugg <- suggestions data keys (tags st) (inputValue st) ;;
  Ok (mkView keys sugg).

Definition suggestionsVisible (v : View) (st : State) : bool :=
  showSuggestions st && (Js.length (viewSuggestions v) >? 0).

(** *** Events and their handlers *)

Inductive Key : Type :=
| ArrowDown | ArrowUp | Enter | Escape | Backspace
| OtherKey.

Inductive Event : Type :=
| TextInputChange (input : string)
| KeyDown (key : Key)
| SuggestionClick (index : nat)
| SuggestionMouseEnter (index : nat)
| TagClick (key : string)
| OverlayClick.

Definition onTextInputChange (st : State) (input : string) : State :=
  mkState input (tags st) true (highlightedSuggestion st).

Definition handleEnter (v : View) (st : State) : State :=
  if negb (showSuggestions st)
  then mkState (inputValue st) (tags st) true (highlightedSuggestion st)
  else selectSuggestion (viewKeys v) (viewSuggestions v) st None.

Definition onKeyDown (v : View) (st : State) (key : Key) : State :=
  match key with
  | OtherKey => st
  | Backspace =>
      if Z.of_nat (String.length (inputValue st)) >? 0 then st
      else mkState (inputValue st) (removeLastTagSection (tags st))
                   (showSuggestions st) (highlightedSuggestion st)
  | ArrowDown =>
      mkState (inputValue st) (tags st) (showSuggestions st)
        (changeHighlightedSuggestion (viewSuggestions v) down (highlightedSuggestion st))
  | ArrowUp =>
      mkState (inputValue st) (tags st) (showSuggestions st)
        (changeHighlightedSuggestion (viewSuggestions v) up (highlightedSuggestion st))
  | Enter => handleEnter v st
  | Escape => mkState (inputValue st) (tags st) false (highlightedSuggestion st)
  end.

Definition handle (v : View) (st : State) (ev : Event) : State :=
  match ev with
  | TextInputChange input => onTextInputChange st input
  | KeyDown key => onKeyDown v st key
  | SuggestionClick i =>
      selectSuggestion (viewKeys v) (viewSuggestions v) st
        (nth_error (viewSuggestions v) i)
  | SuggestionMouseEnter i =>
      mkState (inputValue st) (tags st) (showSuggestions st) (Z.of_nat i)
  | TagClick key =>
      mkState (inputValue st) (Map.delete (tags st) key)
              (showSuggestions st) (highlightedSuggestion st)
  | OverlayClick =>
      mkState (inputValue st) (tags st) false (highlightedSuggestion st)
  end.

(** An event can only come from an element that is rendered: a suggestion
    row of the open panel, the chip of a tag with a truthy value, the
    overlay under the open panel. *)
Definition enabled (v : View) (st : State) (ev : Event) : bool :=
  match ev with
  | TextInputChange _ | KeyDown _ => true
  | SuggestionClick i | SuggestionMouseEnter i =>
      suggestionsVisible v st && (Z.of_nat i <? Js.length (viewSuggestions v))
  | TagClick key =>
      match Map.lookup (tags st) key with
      | Some value => Js.truthy value
      | None => false
      end
  | OverlayClick => suggestionsVisible v st
  end.

(** After a state change the component renders again and its effects run:
    the highlight is clamped and the filtered rows go to [onChange]. *)
Definition settle (data : list HttpLog) (st : State)
  : result (State * list HttpLog) :=
  v <- render data st ;;
  rows <- filterResults data (viewKeys v) (tags st) (inputValue st) ;;
  Ok (mkState (inputValue st) (tags st) (showSuggestions st)
        (clampHighlight (viewSuggestions v) (highlightedSuggestion st)),
      rows).

Definition step (data : list HttpLog) (st : State) (ev : Event)
  : result (State * list HttpLog) :=
  v <- render data st ;;
  settle data (handle v st ev).

(** The states the mounted component goes through. *)
Inductive reachable (data : list HttpLog) : State -> Prop :=
| reachable_mount : forall st rows,
    settle data initialState = Ok (st, rows) ->
    reachable data st
| reachable_step : forall st ev v st' rows,
    reachable data st ->
    render data st = Ok v ->
    enabled v st ev = true ->
    step data st ev = Ok (st', rows) ->
    reachable data st'.

(** Runs a list of events from the mounted state. *)
Fixpoint run (data : list HttpLog) (st : State) (evs : list Event)
  : result State :=
  match evs with
  | [] => Ok st
  | ev :: rest =>
      v <- render data st ;;
      if enabled v st ev then
        next <- step data st ev ;;
        run data (fst next) rest
      else TypeError
  end.

Definition mount (data : list HttpLog) : result State :=
  next <- settle data initialState ;; Ok (fst next).

(** *** Sample records *)

Definition record (id domain method path : string) (statusCode : Z) : HttpLog :=
  [("id", VStr id); ("domain", VStr domain); ("method", VStr method);
   ("path", VStr path); ("statusCode", VNum statusCode)].

Definition log1 : HttpLog := record "1" "api.example.com" "GET" "/users" 200.
Definition log2 : HttpLog := record "2" "api.example.com" "POST" "/users/1" 201.
Definition log3 : HttpLog := record "3" "cdn.example.com" "GET" "/posts" 404.

Definition sample : list HttpLog := [log1; log2; log3].

Definition sampleKeys : list string :=
  ["id"; "domain"; "method"; "path"; "statusCode"].

(** * Specification-side definitions *)

(** The keys of the tag store are field names of [HttpLog]. *)
Definition tags_typed (tags : TagMap) : Prop :=
  forall k, In k (Map.keys tags) -> In k HttpLog_fields.

(** The acceptance condition in the words of the specification.  A tag
    constrains a record when its value is neither pending nor empty. *)
Definition tagsHold (item : HttpLog) (tags : TagMap) : Prop :=
  forall k v, In (k, Some v) tags -> v <> "" ->
    exists fv, get item k = Some fv /\ Value_toString fv = v.

Definition selectingFieldName (keys : list string) (tags : TagMap)
  (input : string) : Prop :=
  exists f, In f keys /\ Js.startsWith f input = true /\ Map.has tags f = false.

Definition pathHolds (keys : list string) (tags : TagMap) (input : string)
  (item : HttpLog) : Prop :=
  input <> "" -> ~ selectingFieldName keys tags input ->
  exists p, get item "path" = Some (VStr p) /\ Js.includes p input = true.

(** The same condition with every non-null value constraining the record,
    as the claim words it. *)
Definition completedTagsHold (item : HttpLog) (tags : TagMap) : Prop :=
  forall k v, In (k, Some v) tags ->
    exists fv, get item k = Some fv /\ Value_toString fv = v.

(** The decision procedure for [tagsHold] and [pathHolds]. *)
Definition tagHolds (item : HttpLog) (e : string * option string) : bool :=
  match snd e with
  | None => true
  | Some v =>
      (v =? "")%string
      || match get item (fst e) with
         | Some fv => (Value_toString fv =? v)%string
         | None => false
         end
  end.

Definition isSelectingTag (keys : list string) (tags : TagMap) (input : string)
  : bool :=
  existsb (fun key => Js.startsWith key input && negb (Map.has tags key)) keys.

Definition accepts (keys : list string) (tags : TagMap) (input : string)
  (item : HttpLog) : bool :=
  forallb (tagHolds item) tags
  && (if negb (input =? "")%string && negb (isSelectingTag keys tags input)
      then match get item "path" with
           | Some (VStr p) => Js.includes p input
           | _ => false
           end
      else true).

(** ** The suggestion engine, in the words of the specification *)

(** The distinct elements of a list, each at its first occurrence. *)
Fixpoint distinct (l : list string) : list string :=
  match l with
  | [] => []
  | x :: rest => x :: filter (fun y => negb (y =? x)%string) (distinct rest)
  end.

(** The stringified values of a field across the dataset. *)
Definition fieldValues (data : list HttpLog) (field : string) : list string :=
  flat_map (fun item =>
              match get item field with
              | Some v => [Value_toString v]
              | None => []
              end) data.

(** The lowercase form of [s] contains the lowercase input text. *)
Definition containsIgnoringCase (input s : string) : bool :=
  Js.includes (Js.toLowerCase s) (Js.toLowerCase input).

Definition matchingValues (data : list HttpLog) (field input : string)
  : list string :=
  distinct (filter (containsIgnoringCase input) (fieldValues data field)).

(** [path] is a key of the tag store with a value that is not pending. *)
Definition pathCompleted (tags : TagMap) : bool :=
  match Map.lookup tags "path" with
  | Some (Some _) => true
  | _ => false
  end.

(** Membership in a [Set] under construction. *)
Definition mem (acc : list string) (y : string) : bool :=
  existsb (String.eqb y) acc.

(** ** The tag store, in the words of the specification *)

(** The number of entries with a pending value. *)
Definition pendingCount (tags : TagMap) : nat :=
  List.length (filter (fun e => is_null (snd e)) tags).

(** No key of the store is the empty string. *)
Definition keysNonEmpty (tags : TagMap) : Prop :=
  forall k, In k (Map.keys tags) -> k <> "".

(** What a commit of the non-empty candidate [c] does to the tag store. *)
Inductive commits (keys : list string) (tags : TagMap) (c : string)
  : TagMap -> Prop :=
| commit_value : forall k,
    incompleteTag tags = Some k -> k <> "" ->
    commits keys tags c (Map.set tags k (Some c))
| commit_key :
    Js.truthy (incompleteTag tags) = false ->
    getMatchingKeys keys tags c <> [] ->
    commits keys tags c (Map.set tags c None)
| commit_path :
    Js.truthy (incompleteTag tags) = false ->
    getMatchingKeys keys tags c = [] ->
    commits keys tags c (Map.set tags "path" (Some c)).

(** The invariant of the tag store that the handlers keep. *)
Definition storeInv (tags : TagMap) : Prop :=
  keysNonEmpty tags /\ (pendingCount tags <= 1)%nat.

(** *** States of the sample session *)

(** After typing "me" and pressing Enter: [method] awaits its value. *)
Definition pendingMethod : State := mkState "" [("method", None)] true 0.

(** After typing "zzz", which matches nothing, and clearing the input. *)
Definition clearedInput : State := mkState "" [] true (-1).

(** No entry is pending. *)
Definition noPending (tags : TagMap) : Prop :=
  forall k, ~ In (k, None) tags.

(** A pending entry, if there is one, is the most recently inserted. *)
Definition pendingLast (tags : TagMap) : Prop :=
  noPending tags
  \/ exists init k, tags = init ++ [(k, None)] /\ noPending init.

(** No field name is a proper prefix of another. *)
Definition prefixFree (keys : list string) : bool :=
  forallb (fun a =>
             forallb (fun b => implb (Js.startsWith b a) (a =? b)%string) keys)
          keys.

Definition prefixFreeKeys (data : list HttpLog) : Prop :=
  match dataKeys data with
  | Ok keys => prefixFree keys = true
  | TypeError => True
  end.

(** The invariant of the tag store in a session over such field names. *)
Definition lifoInv (tags : TagMap) : Prop :=
  Map.wf tags /\ keysNonEmpty tags /\ pendingLast tags.

(** *** A dataset with a path that is a prefix of a field name *)

Definition stLog : HttpLog := record "1" "api.example.com" "GET" "st" 200.

Definition stData : list HttpLog := [stLog].

(** After mounting and pressing Enter once: the panel is open. *)
Definition openedPanel : State := mkState "" [] true 0.

(** ** The page and the rendered tags *)

(** [rowKey={(row) => row.id}] of the table in [App.tsx]. *)
Definition rowKey (row : HttpLog) : option Value := get row "id".

(** The chips of the component: one for each entry of the tag store with a
    truthy value ([value && <div ...>]). *)
Definition chips (tags : TagMap) : TagMap :=
  filter (fun e => Js.truthy (snd e)) tags.

(** No value of the store is the empty string. *)
Definition valuesNonEmpty (tags : TagMap) : Prop :=
  forall k v, In (k, Some v) tags -> v <> "".

(** The events that may commit a suggestion: Enter and a click on a row. *)
Definition isCommit (ev : Event) : bool :=
  match ev with
  | KeyDown Enter | SuggestionClick _ => true
  | _ => false
  end.

(** * Properties *)

(** ** Strings and arrays *)

Lemma prefix_app (p s : string) :
  String.prefix p s = true <-> exists rest, s = (p ++ rest)%string.
Proof.
  revert s; induction p as [|c p IH]; intros s; simpl.
  - split; [intros _; now exists s | intros _; now destruct s].
  - destruct s as [|d s]; simpl.
    + split; [discriminate | intros [rest H]; discriminate].
    + destruct (ascii_dec c d) as [->|Hcd].
      * rewrite IH. split; intros [rest H]; exists rest.
        -- now rewrite H.
        -- now injection H.
      * split; [discriminate | intros [rest H]]. injection H as H1 H2.
        congruence.
Qed.

(** [includes] is the substring test. *)
Lemma includes_unfold (s t : string) :
  Js.includes s t =
  (String.prefix t s
   || match s with
      | EmptyString => false
      | String _ rest => Js.includes rest t
      end)%bool.
Proof. destruct s as [|c s]; simpl; now destruct (String.prefix t). Qed.

(** [includes] is the substring test. *)
Lemma includes_substring (s t : string) :
  Js.includes s t = true <-> exists a b, s = (a ++ t ++ b)%string.
Proof.
  induction s as [|c s IH]; rewrite includes_unfold, orb_true_iff, prefix_app.
  - split.
    + intros [[rest H]|H]; [now exists "", rest | discriminate].
    + intros (a & b & H). left. destruct a; [now exists b | discriminate].
  - rewrite IH. split.
    + intros [[rest H]|(a & b & H)]; [now exists "", rest|].
      exists (String c a), b. simpl. now rewrite H.
    + intros (a & b & H). destruct a as [|c' a]; simpl in H.
      * left. now exists b.
      * right. injection H as _ H. now exists a, b.
Qed.

Lemma includes_empty (s : string) : Js.includes s "" = true.
Proof. destruct s; reflexivity. Qed.

Lemma bind_Ok {A B : Type} (r : result A) (k : A -> result B) (b : B) :
  bind r k = Ok b -> exists a, r = Ok a /\ k a = Ok b.
Proof. destruct r as [a|]; simpl; [now exists a | discriminate]. Qed.

Lemma Array_filter_total {A : Type} (f : A -> result bool) (p : A -> bool)
  (arr : list A) :
  (forall x, In x arr -> f x = Ok (p x)) ->
  Array_filter f arr = Ok (filter p arr).
Proof.
  induction arr as [|x arr IH]; intros H; simpl; [reflexivity|].
  rewrite (H x (or_introl eq_refl)); simpl.
  rewrite IH by (intros y Hy; apply H; now right). simpl.
  now destruct (p x).
Qed.

Lemma Array_filter_ext {A : Type} (f g : A -> result bool) (arr : list A) :
  (forall x, In x arr -> f x = g x) ->
  Array_filter f arr = Array_filter g arr.
Proof.
  induction arr as [|x arr IH]; intros H; simpl; [reflexivity|].
  rewrite (H x (or_introl eq_refl)).
  now rewrite IH by (intros y Hy; apply H; now right).
Qed.

Lemma Array_map_total {A B : Type} (f : A -> result B) (g : A -> B)
  (arr : list A) :
  (forall x, In x arr -> f x = Ok (g x)) ->
  Array_map f arr = Ok (map g arr).
Proof.
  induction arr as [|x arr IH]; intros H; simpl; [reflexivity|].
  rewrite (H x (or_introl eq_refl)); simpl.
  now rewrite IH by (intros y Hy; apply H; now right).
Qed.

(** ** Typed records *)

Lemma HttpLog_typed_get (item : HttpLog) (k : string) :
  HttpLog_typed item -> In k HttpLog_fields -> exists v, get item k = Some v.
Proof.
  intros ((m & Hm & _) & (p & Hp) & (n & Hn) & (i & Hi) & (d & Hd)) Hk.
  simpl in Hk.
  destruct Hk as [<-|[<-|[<-|[<-|[<-|[]]]]]]; eauto.
Qed.

Lemma HttpLog_fields_nonempty (k : string) : In k HttpLog_fields -> k <> "".
Proof.
  simpl. intros [<-|[<-|[<-|[<-|[<-|[]]]]]]; discriminate.
Qed.

Lemma record_typed (id domain method path : string) (statusCode : Z) :
  is_method method = true ->
  HttpLog_typed (record id domain method path statusCode).
Proof.
  intros Hm. unfold HttpLog_typed, record; simpl.
  repeat split; eauto.
Qed.

Lemma sample_typed : Forall HttpLog_typed sample.
Proof. repeat constructor; now apply record_typed. Qed.

(** ** The filter evaluator *)

Lemma tagHolds_iff (item : HttpLog) (tags : TagMap) :
  forallb (tagHolds item) tags = true <-> tagsHold item tags.
Proof.
  unfold tagsHold. rewrite forallb_forall. split.
  - intros H k v Hin Hv. specialize (H _ Hin). unfold tagHolds in H; simpl in H.
    apply orb_true_iff in H as [H|H].
    + apply String.eqb_eq in H. contradiction.
    + destruct (get item k) as [fv|]; [|discriminate].
      apply String.eqb_eq in H. eauto.
  - intros H [k [v|]] Hin; unfold tagHolds; simpl; [|reflexivity].
    destruct (String.eqb_spec v "") as [|Hv]; [reflexivity|]. simpl.
    destruct (H k v Hin Hv) as (fv & -> & <-). apply String.eqb_refl.
Qed.

Lemma isSelectingTag_iff (keys : list string) (tags : TagMap) (input : string) :
  isSelectingTag keys tags input = true <-> selectingFieldName keys tags input.
Proof.
  unfold isSelectingTag, selectingFieldName. rewrite existsb_exists.
  split; intros (f & Hf & H); exists f; split; trivial.
  - apply andb_true_iff in H as [H1 H2]. apply negb_true_iff in H2. now split.
  - destruct H as [-> ->]. reflexivity.
Qed.

Lemma accepts_iff (keys : list string) (tags : TagMap) (input : string)
  (item : HttpLog) :
  (exists p, get item "path" = Some (VStr p)) ->
  accepts keys tags input item = true <->
  tagsHold item tags /\ pathHolds keys tags input item.
Proof.
  intros [p Hp]. unfold accepts, pathHolds.
  rewrite andb_true_iff, tagHolds_iff, Hp.
  apply and_iff_compat_l.
  destruct (String.eqb_spec input "") as [->|Hne]; simpl.
  - split; [intros _ H; now contradiction H | reflexivity].
  - destruct (isSelectingTag keys tags input) eqn:Hsel; simpl.
    + split; [intros _ _ H | reflexivity].
      contradiction H. now apply isSelectingTag_iff.
    + split.
      * intros H _ _. now exists p.
      * intros H. destruct H as (p' & Hp' & H); trivial.
        -- intros Hs. apply isSelectingTag_iff in Hs. congruence.
        -- congruence.
Qed.

Lemma string_length_pos (s : string) :
  (Z.of_nat (String.length s) >? 0) = negb (s =? "")%string.
Proof. destruct s; simpl; [reflexivity|]. now rewrite Z.gtb_ltb. Qed.

Lemma tagsLoop_total (item : HttpLog) (tags : TagMap) :
  (forall k v, In (k, v) tags -> Js.truthy v = true -> get item k <> None) ->
  tagsLoop item tags = Ok (forallb (tagHolds item) tags).
Proof.
  induction tags as [|[k v] tags IH]; intros H; simpl; [reflexivity|].
  assert (IH' := IH (fun k' v' Hin => H k' v' (or_intror Hin))).
  unfold tagHolds at 1; simpl.
  destruct v as [v|]; simpl; [|exact IH'].
  destruct (String.eqb_spec v "") as [->|Hv]; simpl; [exact IH'|].
  destruct (get item k) as [fv|] eqn:Hget; simpl.
  - destruct (Value_toString fv =? v)%string; simpl; [exact IH' | reflexivity].
  - exfalso. apply (H k (Some v)); [now left | | exact Hget].
    simpl. now apply negb_true_iff, String.eqb_neq.
Qed.

Lemma filterCallback_total (keys : list string) (tags : TagMap)
  (input : string) (item : HttpLog) :
  HttpLog_typed item -> tags_typed tags ->
  filterCallback keys tags input item = Ok (accepts keys tags input item).
Proof.
  intros Hitem Htags. unfold filterCallback, accepts.
  rewrite tagsLoop_total.
  - simpl. destruct (forallb (tagHolds item) tags); simpl; [|reflexivity].
    rewrite string_length_pos. fold (isSelectingTag keys tags input).
    destruct (negb (input =? "")%string && negb (isSelectingTag keys tags input));
      [|reflexivity].
    unfold pathIncludes.
    destruct Hitem as (_ & (p & ->) & _). reflexivity.
  - intros k v Hin _ Hnone.
    destruct (HttpLog_typed_get item k Hitem) as [fv Hfv]; [|congruence].
    apply Htags. unfold Map.keys. now apply (in_map fst) in Hin.
Qed.

Lemma sampleKeys_typed (tags : list (string * option string)) :
  (forall k, In k (Map.keys tags) -> In k sampleKeys) -> tags_typed tags.
Proof.
  intros H k Hk. specialize (H k Hk). simpl in *.
  destruct H as [<-|[<-|[<-|[<-|[<-|[]]]]]]; auto 6.
Qed.

(** Over typed records and a tag store whose keys are field names, whatever
    its values, the filter effect completes and reports the records of the
    dataset, in dataset order, for which every tag whose value is neither
    pending nor the empty string equals the stringified field of the
    record, and the path condition holds. *)
Theorem filterResults_accepts (data : list HttpLog) (keys : list string)
  (tags : TagMap) (input : string) :
  Forall HttpLog_typed data -> tags_typed tags ->
  filterResults data keys tags input = Ok (filter (accepts keys tags input) data)
  /\ forall item, In item data ->
       (accepts keys tags input item = true <->
        tagsHold item tags /\ pathHolds keys tags input item).
Proof.
  intros Hdata Htags. rewrite Forall_forall in Hdata. split.
  - apply Array_filter_total. intros item Hin.
    now apply filterCallback_total; [apply Hdata|].
  - intros item Hin. apply accepts_iff.
    now destruct (Hdata item Hin) as (_ & Hp & _).
Qed.

Lemma filterResults_accepts_witness :
  filterResults sample sampleKeys [("method", Some "GET")] "us"
  = Ok (filter (accepts sampleKeys [("method", Some "GET")] "us") sample)
  /\ forall item, In item sample ->
       (accepts sampleKeys [("method", Some "GET")] "us" item = true <->
        tagsHold item [("method", Some "GET")]
        /\ pathHolds sampleKeys [("method", Some "GET")] "us" item).
Proof.
  apply (filterResults_accepts sample sampleKeys [("method", Some "GET")] "us").
  - exact sample_typed.
  - intros k Hk. simpl in Hk. destruct Hk as [<-|[]]. simpl. auto.
Defined.

(** A store that holds an empty-string value, which no event of the
    component produces: the entry is skipped by the loop, so the record is
    reported although its method differs from the value. *)
Example filterResults_empty_value_skipped :
  filterResults [log1] sampleKeys [("method", Some "")] "" = Ok [log1]
  /\ ~ (completedTagsHold log1 [("method", Some "")]
        /\ pathHolds sampleKeys [("method", Some "")] "" log1).
Proof.
  split; [reflexivity|].
  intros [H _]. destruct (H "method" "") as (fv & Hget & Hfv); [now left|].
  vm_compute in Hget. injection Hget as <-. discriminate.
Qed.

(** C8: with an empty tag store and empty input text the filter effect
    reports the dataset unchanged, whatever the dataset and the field
    names are. *)
Theorem filterResults_identity (data : list HttpLog) (keys : list string) :
  filterResults data keys [] "" = Ok data.
Proof.
  unfold filterResults.
  induction data as [|item data IH]; simpl; [reflexivity|].
  now rewrite IH.
Qed.

Lemma has_entry_value (pre post : TagMap) (k key : string)
  (v1 v2 : option string) :
  Map.has (pre ++ (k, v1) :: post) key = Map.has (pre ++ (k, v2) :: post) key.
Proof. unfold Map.has. now rewrite !existsb_app. Qed.

Lemma tagsLoop_falsy (item : HttpLog) (pre post : TagMap) (k : string)
  (v : option string) :
  Js.truthy v = false ->
  tagsLoop item (pre ++ (k, v) :: post) = tagsLoop item (pre ++ post).
Proof.
  intros Hv. induction pre as [|[k' v'] pre IH]; simpl.
  - now rewrite Hv.
  - rewrite IH. reflexivity.
Qed.

(** C10: in the filter effect a tag whose value is the empty string acts
    exactly as the same tag with a pending value: every record gets the same
    verdict and the reported rows are the same. *)
Theorem filterResults_empty_value_pending (data : list HttpLog)
  (keys : list string) (pre post : TagMap) (k input : string) :
  (forall item,
      filterCallback keys (pre ++ (k, Some "") :: post) input item
      = filterCallback keys (pre ++ (k, None) :: post) input item)
  /\ filterResults data keys (pre ++ (k, Some "") :: post) input
     = filterResults data keys (pre ++ (k, None) :: post) input.
Proof.
  assert (H : forall item,
             filterCallback keys (pre ++ (k, Some "") :: post) input item
             = filterCallback keys (pre ++ (k, None) :: post) input item).
  { intros item. unfold filterCallback.
    rewrite !tagsLoop_falsy by reflexivity.
    destruct (tagsLoop item (pre ++ post)) as [[|]|]; simpl; trivial.
    replace (existsb _ keys) with
      (existsb (fun key => Js.startsWith key input
                           && negb (Map.has (pre ++ (k, None) :: post) key)) keys).
    - reflexivity.
    - induction keys as [|key keys IH]; simpl; [reflexivity|].
      now rewrite IH, (has_entry_value pre post k key None (Some "")). }
  split; [exact H|].
  unfold filterResults. apply Array_filter_ext. intros item _. apply H.
Qed.

(** ** The suggestion engine *)

Lemma filter_filter_and {A : Type} (p q : A -> bool) (l : list A) :
  filter p (filter q l) = filter (fun y => q y && p y) l.
Proof.
  induction l as [|x l IH]; simpl; [reflexivity|].
  destruct (q x); simpl; [destruct (p x)|]; now rewrite IH.
Qed.

Lemma Set_from_acc (l acc : list string) :
  fold_left Js.Set_add l acc
  = acc ++ filter (fun y => negb (mem acc y)) (distinct l).
Proof.
  revert acc; induction l as [|x l IH]; intros acc; simpl.
  - now rewrite app_nil_r.
  - rewrite IH. unfold Js.Set_add. fold (mem acc x).
    rewrite filter_filter_and.
    destruct (mem acc x) eqn:Hx; simpl.
    + f_equal. apply filter_ext. intros y.
      destruct (String.eqb_spec y x) as [->|Hyx]; simpl; [|reflexivity].
      now rewrite Hx.
    + rewrite <- app_assoc. simpl. do 2 f_equal. apply filter_ext. intros y.
      unfold mem. rewrite existsb_app. simpl.
      rewrite orb_false_r, negb_orb. apply andb_comm.
Qed.

(** Building a [Set] and listing it keeps the first occurrence of each
    element, in order. *)
Lemma Set_from_distinct (l : list string) : Js.Set_from l = distinct l.
Proof.
  unfold Js.Set_from. rewrite Set_from_acc. simpl.
  induction (distinct l) as [|y d IH]; simpl; [reflexivity|]. now rewrite IH.
Qed.

Lemma distinct_In (l : list string) (x : string) :
  In x (distinct l) <-> In x l.
Proof.
  induction l as [|y l IH]; simpl; [reflexivity|].
  rewrite filter_In, IH, negb_true_iff, String.eqb_neq.
  destruct (String.eqb_spec x y) as [->|Hxy]; [tauto|].
  split; [tauto|]. intros [H|H]; [congruence | tauto].
Qed.

Lemma distinct_NoDup (l : list string) : NoDup (distinct l).
Proof.
  induction l as [|y l IH]; simpl; constructor.
  - rewrite filter_In, negb_true_iff, String.eqb_neq. tauto.
  - now apply NoDup_filter.
Qed.

Lemma getSuggestions_total (data : list HttpLog) (field input : string) :
  (forall item, In item data -> exists v, get item field = Some v) ->
  getSuggestions data field input = Ok (matchingValues data field input).
Proof.
  intros Hfield. unfold getSuggestions, matchingValues.
  set (p := fun s : option Value =>
              match s with
              | Some v => containsIgnoringCase input (Value_toString v)
              | None => false
              end).
  set (g := fun s : option Value =>
              match s with
              | Some v => Value_toString v
              | None => ""
              end).
  rewrite (Array_filter_total _ p).
  - simpl. rewrite (Array_map_total _ g).
    + simpl. rewrite Set_from_distinct. do 2 f_equal.
      clear Hfield. induction data as [|item data IH]; simpl; [reflexivity|].
      rewrite filter_app, <- IH.
      destruct (get item field) as [v|]; simpl; [|reflexivity].
      now destruct (containsIgnoringCase input (Value_toString v)).
    + intros s Hs. apply filter_In in Hs as [_ Hs].
      destruct s; [reflexivity | discriminate].
  - intros s Hs. apply in_map_iff in Hs as (item & <- & Hitem).
    destruct (Hfield item Hitem) as [v ->]. reflexivity.
Qed.

Lemma incompleteTag_Some (tags : TagMap) (k : string) :
  incompleteTag tags = Some k -> In (k, None) tags.
Proof.
  unfold incompleteTag.
  destruct (find _ tags) as [[k' v]|] eqn:Hfind; [|discriminate].
  intros [= ->]. apply find_some in Hfind as [Hin Hv].
  destruct v; [discriminate | exact Hin].
Qed.

Lemma incompleteTag_None (tags : TagMap) (k : string) :
  incompleteTag tags = None -> ~ In (k, None) tags.
Proof.
  unfold incompleteTag.
  destruct (find _ tags) as [[k' v]|] eqn:Hfind; [discriminate|].
  intros _ Hin. now apply (find_none _ _ Hfind) in Hin.
Qed.

Lemma has_lookup (tags : TagMap) (k : string) :
  Map.has tags k = match Map.lookup tags k with Some _ => true | None => false end.
Proof.
  induction tags as [|[k' v] tags IH]; simpl; [reflexivity|].
  now destruct (k' =? k)%string.
Qed.

Lemma lookup_In (tags : TagMap) (k : string) (v : option string) :
  Map.lookup tags k = Some v -> In (k, v) tags.
Proof.
  induction tags as [|[k' v'] tags IH]; simpl; [discriminate|].
  destruct (String.eqb_spec k' k) as [->|Hk].
  - intros [= ->]. now left.
  - intros H. right. now apply IH.
Qed.

Lemma has_In (tags : TagMap) (k : string) :
  Map.has tags k = true <-> In k (Map.keys tags).
Proof.
  unfold Map.has, Map.keys. rewrite existsb_exists, in_map_iff.
  split; intros (e & H1 & H2).
  - exists e. apply String.eqb_eq in H2. now split.
  - exists e. split; [exact H2|]. now apply String.eqb_eq.
Qed.

Lemma pathCompleted_has (tags : TagMap) :
  incompleteTag tags = None -> pathCompleted tags = Map.has tags "path".
Proof.
  intros Hnone. unfold pathCompleted. rewrite has_lookup.
  destruct (Map.lookup tags "path") as [[v|]|] eqn:Hl; trivial.
  apply lookup_In in Hl. now apply incompleteTag_None in Hl.
Qed.

Lemma length_pos {A : Type} (l : list A) :
  (Js.length l >? 0) = match l with [] => false | _ :: _ => true end.
Proof. destruct l; unfold Js.length; simpl; [reflexivity|]. now rewrite Z.gtb_ltb. Qed.

(** C2: over typed records and a tag store whose keys are field names, the
    suggestion list is: when a tag is incomplete, the distinct stringified
    values of its field whose lowercase form contains the lowercase input,
    in first-seen order; otherwise the distinct matching path values, when
    path is not a completed tag and there is such a value; otherwise the
    field names that start with the input and are not keys of the tag
    store. *)
Theorem suggestions_spec (data : list HttpLog) (keys : list string)
  (tags : TagMap) (input : string) :
  Forall HttpLog_typed data -> tags_typed tags ->
  (forall k, incompleteTag tags = Some k ->
     suggestions data keys tags input = Ok (matchingValues data k input))
  /\ (incompleteTag tags = None -> pathCompleted tags = false ->
      matchingValues data "path" input <> [] ->
      suggestions data keys tags input = Ok (matchingValues data "path" input))
  /\ (incompleteTag tags = None ->
      pathCompleted tags = true \/ matchingValues data "path" input = [] ->
      suggestions data keys tags input
      = Ok (filter (fun f => Js.startsWith f input && negb (Map.has tags f)) keys)).
Proof.
  intros Hdata Htags. rewrite Forall_forall in Hdata.
  assert (Hget : forall k, In k HttpLog_fields ->
            getSuggestions data k input = Ok (matchingValues data k input)).
  { intros k Hk. apply getSuggestions_total. intros item Hitem.
    now apply HttpLog_typed_get; [apply Hdata|]. }
  unfold suggestions. repeat split.
  - intros k Hk. rewrite Hk. simpl.
    assert (Hin : In k HttpLog_fields).
    { apply Htags. apply incompleteTag_Some in Hk.
      now apply (in_map fst) in Hk. }
    destruct (String.eqb_spec k "") as [->|_]; simpl.
    + now apply HttpLog_fields_nonempty in Hin.
    + now apply Hget.
  - intros Hnone Hpath Hne. rewrite Hnone. simpl.
    rewrite <- (pathCompleted_has tags Hnone), Hpath. simpl.
    rewrite Hget by (simpl; auto). simpl.
    rewrite length_pos.
    now destruct (matchingValues data "path" input).
  - intros Hnone Hpath. rewrite Hnone. simpl.
    rewrite <- (pathCompleted_has tags Hnone).
    destruct (pathCompleted tags); simpl; [reflexivity|].
    destruct Hpath as [Hpath|Hpath]; [discriminate|].
    rewrite Hget by (simpl; auto). simpl.
    now rewrite Hpath.
Qed.

Lemma suggestions_spec_witness :
  (forall k, incompleteTag [("method", None)] = Some k ->
     suggestions sample sampleKeys [("method", None)] "p"
     = Ok (matchingValues sample k "p"))
  /\ (incompleteTag [("method", None)] = None ->
      pathCompleted [("method", None)] = false ->
      matchingValues sample "path" "p" <> [] ->
      suggestions sample sampleKeys [("method", None)] "p"
      = Ok (matchingValues sample "path" "p"))
  /\ (incompleteTag [("method", None)] = None ->
      pathCompleted [("method", None)] = true
      \/ matchingValues sample "path" "p" = [] ->
      suggestions sample sampleKeys [("method", None)] "p"
      = Ok (filter (fun f => Js.startsWith f "p"
                             && negb (Map.has [("method", None)] f)) sampleKeys)).
Proof.
  apply (suggestions_spec sample sampleKeys [("method", None)] "p").
  - exact sample_typed.
  - apply sampleKeys_typed. intros k Hk. simpl in Hk.
    destruct Hk as [<-|[]]. simpl. auto.
Defined.

(** ** The tag store *)

Lemma truthy_Some (o : option string) :
  Js.truthy o = true <-> exists s, o = Some s /\ s <> "".
Proof.
  destruct o as [s|]; simpl.
  - rewrite negb_true_iff, String.eqb_neq. split.
    + intros H. now exists s.
    + now intros (s' & [= <-] & H).
  - split; [discriminate | now intros (s & H & _)].
Qed.

Lemma selectSuggestion_cases (keys sugg : list string) (st : State)
  (suggestion : option string) :
  (Js.truthy (selectedSuggestion sugg (highlightedSuggestion st) suggestion) = false
   /\ selectSuggestion keys sugg st suggestion = st)
  \/ exists c tags',
       selectedSuggestion sugg (highlightedSuggestion st) suggestion = Some c
       /\ c <> ""
       /\ commits keys (tags st) c tags'
       /\ selectSuggestion keys sugg st suggestion
          = mkState "" tags' (showSuggestions st) 0.
Proof.
  unfold selectSuggestion.
  destruct (Js.truthy (selectedSuggestion sugg (highlightedSuggestion st) suggestion))
    eqn:Hsel; [right | now left].
  apply truthy_Some in Hsel as (c & -> & Hc). simpl Js.ToString.
  destruct (Js.truthy (incompleteTag (tags st))) eqn:Hinc.
  - apply truthy_Some in Hinc as (k & Hk & Hne). rewrite Hk. simpl.
    exists c, (Map.set (tags st) k (Some c)). repeat split; trivial.
    now apply commit_value.
  - rewrite length_pos.
    destruct (getMatchingKeys keys (tags st) c) eqn:Hmatch.
    + exists c, (Map.set (tags st) "path" (Some c)). repeat split; trivial.
      now apply commit_path.
    + exists c, (Map.set (tags st) c None). repeat split; trivial.
      apply commit_key; [exact Hinc | congruence].
Qed.

Lemma pendingCount_zero (tags : TagMap) :
  pendingCount tags = 0%nat <-> incompleteTag tags = None.
Proof.
  unfold pendingCount, incompleteTag.
  induction tags as [|[k v] tags IH]; simpl; [tauto|].
  destruct v; simpl; [exact IH|]. split; discriminate.
Qed.

Lemma not_truthy_incomplete (tags : TagMap) :
  keysNonEmpty tags -> Js.truthy (incompleteTag tags) = false ->
  incompleteTag tags = None.
Proof.
  intros Hne Hf. destruct (incompleteTag tags) as [k|] eqn:Hk; [|reflexivity].
  simpl in Hf. apply negb_false_iff, String.eqb_eq in Hf. subst k.
  apply incompleteTag_Some in Hk. apply (in_map fst) in Hk.
  now apply Hne in Hk.
Qed.

Lemma pendingCount_set_value (tags : TagMap) (k s : string) :
  (pendingCount (Map.set tags k (Some s)) <= pendingCount tags)%nat.
Proof.
  unfold pendingCount.
  induction tags as [|[k' v'] tags IH]; simpl; [lia|].
  destruct (k' =? k)%string; simpl.
  - destruct v'; simpl; lia.
  - destruct v'; simpl; lia.
Qed.

Lemma pendingCount_set_null (tags : TagMap) (k : string) :
  (pendingCount (Map.set tags k None) <= S (pendingCount tags))%nat.
Proof.
  unfold pendingCount.
  induction tags as [|[k' v'] tags IH]; simpl; [lia|].
  destruct (k' =? k)%string; simpl.
  - destruct v'; simpl; lia.
  - destruct v'; simpl; lia.
Qed.

Lemma pendingCount_delete (tags : TagMap) (k : string) :
  (pendingCount (Map.delete tags k) <= pendingCount tags)%nat.
Proof.
  unfold pendingCount.
  induction tags as [|[k' v'] tags IH]; simpl; [lia|].
  destruct (k' =? k)%string; simpl.
  - destruct v'; simpl; lia.
  - destruct v'; simpl; lia.
Qed.

Lemma keys_set (tags : TagMap) (k : string) (v : option string) :
  forall k', In k' (Map.keys (Map.set tags k v)) ->
             k' = k \/ In k' (Map.keys tags).
Proof.
  induction tags as [|[k0 v0] tags IH]; simpl; intros k'.
  - intros [<-|[]]. now left.
  - destruct (String.eqb_spec k0 k) as [->|Hk]; simpl.
    + intros [<-|H]; auto.
    + intros [<-|H]; auto. destruct (IH _ H); auto.
Qed.

Lemma keys_delete (tags : TagMap) (k : string) :
  forall k', In k' (Map.keys (Map.delete tags k)) -> In k' (Map.keys tags).
Proof.
  induction tags as [|[k0 v0] tags IH]; simpl; intros k'; [tauto|].
  destruct (String.eqb_spec k0 k) as [->|Hk]; simpl.
  - auto.
  - intros [<-|H]; auto.
Qed.

Lemma Array_last_In {A : Type} (arr : list A) (x : A) :
  Array_last arr = Some x -> exists init, arr = init ++ [x].
Proof.
  induction arr as [|y arr IH]; simpl; [discriminate|].
  destruct arr as [|z arr].
  - intros [= <-]. now exists [].
  - intros H. destruct (IH H) as [init ->]. now exists (y :: init).
Qed.

Lemma Array_last_app {A : Type} (init : list A) (x : A) :
  Array_last (init ++ [x]) = Some x.
Proof.
  induction init as [|y init IH]; simpl; [reflexivity|].
  rewrite IH. now destruct (init ++ [x]) eqn:H; [destruct init|].
Qed.

Lemma keysNonEmpty_commits (keys : list string) (tags tags' : TagMap)
  (c : string) :
  c <> "" -> commits keys tags c tags' ->
  keysNonEmpty tags -> keysNonEmpty tags'.
Proof.
  intros Hc Hcommit Hne k' Hk'.
  destruct Hcommit as [k Hk Hkne| |]; apply keys_set in Hk' as [->|Hk'];
    try (now apply Hne); trivial; discriminate.
Qed.

Lemma pendingCount_commits (keys : list string) (tags tags' : TagMap)
  (c : string) :
  commits keys tags c tags' -> keysNonEmpty tags ->
  (pendingCount tags <= 1 -> pendingCount tags' <= 1)%nat.
Proof.
  intros Hcommit Hne Hle.
  destruct Hcommit as [k Hk Hkne|Hinc Hm|Hinc Hm].
  - pose proof (pendingCount_set_value tags k c). lia.
  - apply (not_truthy_incomplete _ Hne), pendingCount_zero in Hinc.
    pose proof (pendingCount_set_null tags c). lia.
  - pose proof (pendingCount_set_value tags "path" c). lia.
Qed.

Lemma keysNonEmpty_removeLast (tags : TagMap) :
  keysNonEmpty tags -> keysNonEmpty (removeLastTagSection tags).
Proof.
  intros Hne k' Hk'. unfold removeLastTagSection, setTag in Hk'.
  destruct (negb (Js.truthy (incompleteTag tags))).
  - destruct (Array_last tags) as [[k v]|] eqn:Hlast; [|now apply Hne].
    apply keys_set in Hk' as [->|Hk']; [|now apply Hne].
    apply Array_last_In in Hlast as [init ->]. apply Hne.
    unfold Map.keys. rewrite map_app, in_app_iff. right. now left.
  - apply keys_delete in Hk'. now apply Hne.
Qed.

Lemma pendingCount_removeLast (tags : TagMap) :
  keysNonEmpty tags ->
  (pendingCount tags <= 1 -> pendingCount (removeLastTagSection tags) <= 1)%nat.
Proof.
  intros Hne Hle. unfold removeLastTagSection, setTag.
  destruct (Js.truthy (incompleteTag tags)) eqn:Hinc; simpl.
  - pose proof (pendingCount_delete tags (Js.ToString (incompleteTag tags))). lia.
  - apply (not_truthy_incomplete _ Hne), pendingCount_zero in Hinc.
    destruct (Array_last tags) as [[k v]|]; [|lia].
    pose proof (pendingCount_set_null tags k). simpl. lia.
Qed.

(** ** The state machine *)

Section Session.

Variable data : list HttpLog.

Lemma settle_Ok (st st' : State) (rows : list HttpLog) :
  settle data st = Ok (st', rows) ->
  exists v, render data st = Ok v
    /\ st' = mkState (inputValue st) (tags st) (showSuggestions st)
               (clampHighlight (viewSuggestions v) (highlightedSuggestion st)).
Proof.
  unfold settle. intros H.
  apply bind_Ok in H as (v & Hv & H).
  apply bind_Ok in H as (rows' & _ & H).
  injection H as <- _. now exists v.
Qed.

Lemma step_Ok (st st' : State) (ev : Event) (v : View) (rows : list HttpLog) :
  render data st = Ok v -> step data st ev = Ok (st', rows) ->
  settle data (handle v st ev) = Ok (st', rows).
Proof. unfold step. now intros ->. Qed.

Lemma render_Ok (st : State) (v : View) :
  render data st = Ok v ->
  dataKeys data = Ok (viewKeys v)
  /\ suggestions data (viewKeys v) (tags st) (inputValue st)
     = Ok (viewSuggestions v).
Proof.
  unfold render. intros H.
  apply bind_Ok in H as (keys & Hkeys & H).
  apply bind_Ok in H as (sugg & Hsugg & H).
  injection H as <-. now split.
Qed.

(** The render reads the input text and the tag store only. *)
Lemma render_ext (st st' : State) :
  inputValue st = inputValue st' -> tags st = tags st' ->
  render data st = render data st'.
Proof. unfold render. now intros -> ->. Qed.

Lemma mount_reachable (st : State) :
  mount data = Ok st -> reachable data st.
Proof.
  unfold mount. intros H. apply bind_Ok in H as ([st' rows] & Hs & [= <-]).
  now apply (reachable_mount data st' rows).
Qed.

Lemma run_reachable (evs : list Event) :
  forall st st', reachable data st -> run data st evs = Ok st' ->
                 reachable data st'.
Proof.
  induction evs as [|ev evs IH]; simpl; intros st st' Hst Hrun.
  - now injection Hrun as <-.
  - apply bind_Ok in Hrun as (v & Hv & Hrun).
    destruct (enabled v st ev) eqn:Hen; [|discriminate].
    apply bind_Ok in Hrun as ([st1 rows] & Hstep & Hrun).
    apply (IH st1 st'); [|exact Hrun].
    now apply (reachable_step data st ev v st1 rows).
Qed.

End Session.

(** What an event does to the tag store. *)
Lemma handle_tags (v : View) (st : State) (ev : Event) :
  tags (handle v st ev) = tags st
  \/ (exists suggestion,
         handle v st ev
         = selectSuggestion (viewKeys v) (viewSuggestions v) st suggestion)
  \/ tags (handle v st ev) = removeLastTagSection (tags st)
  \/ exists key, ev = TagClick key
                 /\ tags (handle v st ev) = Map.delete (tags st) key.
Proof.
  destruct ev as [input|key|i|i|key|]; simpl; auto.
  - destruct key; simpl; auto.
    + unfold handleEnter. destruct (negb (showSuggestions st)); simpl; eauto.
    + destruct (Z.of_nat (String.length (inputValue st)) >? 0); simpl; auto.
  - eauto.
  - right; right; right. eauto.
Qed.

Lemma storeInv_handle (v : View) (st : State) (ev : Event) :
  storeInv (tags st) -> storeInv (tags (handle v st ev)).
Proof.
  intros [Hne Hle].
  destruct (handle_tags v st ev) as [->|[[s ->]|[->|(key & _ & ->)]]].
  - now split.
  - destruct (selectSuggestion_cases (viewKeys v) (viewSuggestions v) st s)
      as [[_ ->]|(c & tags' & _ & Hc & Hcommit & ->)]; [now split|].
    simpl. split.
    + now apply (keysNonEmpty_commits _ _ _ _ Hc Hcommit).
    + now apply (pendingCount_commits _ _ _ _ Hcommit).
  - split; [now apply keysNonEmpty_removeLast | now apply pendingCount_removeLast].
  - split.
    + intros k Hk. apply keys_delete in Hk. now apply Hne.
    + pose proof (pendingCount_delete (tags st) key). lia.
Qed.

Lemma reachable_storeInv (data : list HttpLog) (st : State) :
  reachable data st -> storeInv (tags st).
Proof.
  induction 1 as [st rows Hmount|st ev v st' rows _ IH Hv _ Hstep].
  - apply settle_Ok in Hmount as (v & _ & ->). simpl.
    split; [intros k [] | cbv; lia].
  - apply (step_Ok _ _ _ _ _ _ Hv), settle_Ok in Hstep as (v' & _ & ->).
    simpl. now apply storeInv_handle.
Qed.

(** The states of the sample session used below. *)
Lemma sample_reachable (evs : list Event) (st : State) :
  (s <- mount sample ;; run sample s evs) = Ok st -> reachable sample st.
Proof.
  intros H. apply bind_Ok in H as (s & Hs & Hrun).
  apply (run_reachable sample evs s st); [|exact Hrun].
  now apply mount_reachable.
Qed.

(** C4: in every state the mounted component reaches, the tag store has at
    most one entry with a pending value, and it still has after committing
    any suggestion, after removing the last tag section and after deleting
    any tag; a commit made while a tag is incomplete adds no pending
    entry. *)
Theorem at_most_one_pending (data : list HttpLog) (st : State) :
  reachable data st ->
  (pendingCount (tags st) <= 1)%nat
  /\ (forall keys sugg suggestion,
        (pendingCount (tags (selectSuggestion keys sugg st suggestion)) <= 1)%nat)
  /\ (pendingCount (removeLastTagSection (tags st)) <= 1)%nat
  /\ (forall key, (pendingCount (Map.delete (tags st) key) <= 1)%nat)
  /\ (forall keys sugg suggestion,
        Js.truthy (incompleteTag (tags st)) = true ->
        (pendingCount (tags (selectSuggestion keys sugg st suggestion))
         <= pendingCount (tags st))%nat).
Proof.
  intros Hreach. destruct (reachable_storeInv data st Hreach) as [Hne Hle].
  repeat split; trivial.
  - intros keys sugg s.
    destruct (selectSuggestion_cases keys sugg st s)
      as [[_ ->]|(c & tags' & _ & Hc & Hcommit & ->)]; [exact Hle|].
    simpl. now apply (pendingCount_commits _ _ _ _ Hcommit).
  - now apply pendingCount_removeLast.
  - intros key. pose proof (pendingCount_delete (tags st) key). lia.
  - intros keys sugg s Hinc.
    destruct (selectSuggestion_cases keys sugg st s)
      as [[_ ->]|(c & tags' & _ & Hc & Hcommit & ->)]; [lia|].
    simpl. destruct Hcommit as [k Hk Hkne|Hinc'|Hinc']; try congruence.
    apply pendingCount_set_value.
Qed.

Lemma at_most_one_pending_witness :
  (pendingCount (tags pendingMethod) <= 1)%nat
  /\ (forall keys sugg suggestion,
        (pendingCount (tags (selectSuggestion keys sugg pendingMethod suggestion))
         <= 1)%nat)
  /\ (pendingCount (removeLastTagSection (tags pendingMethod)) <= 1)%nat
  /\ (forall key, (pendingCount (Map.delete (tags pendingMethod) key) <= 1)%nat)
  /\ (forall keys sugg suggestion,
        Js.truthy (incompleteTag (tags pendingMethod)) = true ->
        (pendingCount (tags (selectSuggestion keys sugg pendingMethod suggestion))
         <= pendingCount (tags pendingMethod))%nat).
Proof.
  apply (at_most_one_pending sample pendingMethod).
  apply (sample_reachable [TextInputChange "me"; KeyDown Enter]).
  vm_compute. reflexivity.
Defined.

(** ** The highlight index *)

Lemma clampHighlight_bounds (sugg : list string) (prev : Z) :
  -1 <= prev -> -1 <= clampHighlight sugg prev <= Js.length sugg - 1.
Proof.
  unfold clampHighlight, Js.length. intros H.
  destruct (Z.geb_spec prev (Z.of_nat (List.length sugg))); lia.
Qed.

Lemma selectSuggestion_highlight (keys sugg : list string) (st : State)
  (suggestion : option string) :
  -1 <= highlightedSuggestion st ->
  -1 <= highlightedSuggestion (selectSuggestion keys sugg st suggestion).
Proof.
  intros H. unfold selectSuggestion.
  destruct (Js.truthy _); simpl; lia.
Qed.

Lemma handle_highlight (v : View) (st : State) (ev : Event) :
  -1 <= highlightedSuggestion st ->
  -1 <= highlightedSuggestion (handle v st ev).
Proof.
  intros H. destruct ev as [input|key|i|i|key|]; simpl; trivial.
  - destruct key; simpl; trivial.
    + destruct (highlightedSuggestion st <? _); lia.
    + destruct (Z.gtb_spec (highlightedSuggestion st) 0); lia.
    + unfold handleEnter. destruct (negb (showSuggestions st)); simpl; trivial.
      now apply selectSuggestion_highlight.
    + now destruct (Z.of_nat (String.length (inputValue st)) >? 0).
  - now apply selectSuggestion_highlight.
  - lia.
Qed.

Lemma settle_highlight (data : list HttpLog) (st0 st : State)
  (rows : list HttpLog) (v : View) :
  -1 <= highlightedSuggestion st0 ->
  settle data st0 = Ok (st, rows) -> render data st = Ok v ->
  -1 <= highlightedSuggestion st <= Js.length (viewSuggestions v) - 1.
Proof.
  intros H0 Hsettle Hv. apply settle_Ok in Hsettle as (v0 & Hv0 & ->).
  rewrite (render_ext data _ st0) in Hv by reflexivity.
  assert (v0 = v) as -> by congruence. simpl.
  now apply clampHighlight_bounds.
Qed.

Lemma reachable_highlight (data : list HttpLog) (st : State) :
  reachable data st ->
  -1 <= highlightedSuggestion st
  /\ forall v, render data st = Ok v ->
               highlightedSuggestion st <= Js.length (viewSuggestions v) - 1.
Proof.
  induction 1 as [st rows Hmount|st ev v st' rows _ [IH _] Hv _ Hstep].
  - destruct (settle_Ok _ _ _ _ Hmount) as (v0 & Hv0 & Hst).
    assert (Hv : render data st = Ok v0).
    { rewrite (render_ext data st initialState); [exact Hv0| |]; now subst st. }
    assert (H0 : -1 <= highlightedSuggestion initialState) by (simpl; lia).
    split; [|intros v Hv'].
    + apply (settle_highlight data initialState st rows v0 H0 Hmount Hv).
    + apply (settle_highlight data initialState st rows v H0 Hmount Hv').
  - apply (step_Ok _ _ _ _ _ _ Hv) in Hstep.
    destruct (settle_Ok _ _ _ _ Hstep) as (v0 & Hv0 & Hst).
    assert (Hv1 : render data st' = Ok v0).
    { rewrite (render_ext data st' (handle v st ev)); [exact Hv0| |];
        now subst st'. }
    assert (H0 := handle_highlight v st ev IH).
    split; [|intros v' Hv'].
    + apply (settle_highlight data (handle v st ev) st' rows v0 H0 Hstep Hv1).
    + apply (settle_highlight data (handle v st ev) st' rows v' H0 Hstep Hv').
Qed.

(** C5 (amended): after every recomputation of the suggestion list the
    highlight index lies within [-1, len(suggestions)-1], so it is -1 when
    the list is empty; the clamp yields an index within
    [0, len(suggestions)-1] when the list is non-empty and the index it
    starts from is not negative. *)
Theorem highlight_after_recomputation (data : list HttpLog) (st : State)
  (v : View) :
  reachable data st -> render data st = Ok v ->
  -1 <= highlightedSuggestion st <= Js.length (viewSuggestions v) - 1
  /\ (viewSuggestions v = [] -> highlightedSuggestion st = -1)
  /\ (forall prev, 0 <= prev -> viewSuggestions v <> [] ->
        0 <= clampHighlight (viewSuggestions v) prev
          <= Js.length (viewSuggestions v) - 1).
Proof.
  intros Hreach Hv.
  destruct (reachable_highlight data st Hreach) as [Hlo Hhi].
  specialize (Hhi v Hv). repeat split; trivial.
  - intros Hnil. rewrite Hnil in Hhi. unfold Js.length in Hhi. simpl in Hhi. lia.
  - unfold clampHighlight. destruct (Z.geb_spec prev (Js.length (viewSuggestions v))).
    + destruct (viewSuggestions v); [congruence|].
      unfold Js.length. simpl List.length. lia.
    + lia.
  - pose proof (clampHighlight_bounds (viewSuggestions v) prev). lia.
Qed.

Lemma highlight_after_recomputation_witness :
  -1 <= highlightedSuggestion pendingMethod <= Js.length ["GET"; "POST"] - 1
  /\ (["GET"; "POST"] = [] -> highlightedSuggestion pendingMethod = -1)
  /\ (forall prev, 0 <= prev -> ["GET"; "POST"] <> [] ->
        0 <= clampHighlight ["GET"; "POST"] prev <= Js.length ["GET"; "POST"] - 1).
Proof.
  apply (highlight_after_recomputation sample pendingMethod
           (mkView sampleKeys ["GET"; "POST"])).
  - apply (sample_reachable [TextInputChange "me"; KeyDown Enter]).
    vm_compute. reflexivity.
  - vm_compute. reflexivity.
Defined.

(** C5 as stated fails: typing text that matches nothing empties the list
    and leaves the index at -1; clearing the input brings the three path
    suggestions back and the index is still -1. *)
Lemma highlight_below_range_counterexample :
  reachable sample clearedInput
  /\ render sample clearedInput
     = Ok (mkView sampleKeys ["/users"; "/users/1"; "/posts"])
  /\ ~ (0 <= highlightedSuggestion clearedInput
          <= Js.length ["/users"; "/users/1"; "/posts"] - 1).
Proof.
  repeat split.
  - apply (sample_reachable [TextInputChange "zzz"; TextInputChange ""]).
    vm_compute. reflexivity.
  - vm_compute. intros [H _]. now apply H.
Qed.

(** C9 (amended): from a highlight index within [0, len(suggestions)-1],
    ArrowUp and ArrowDown keep the index within that range, moving it by
    one and saturating at the bounds: ArrowUp at 0 and ArrowDown at
    len(suggestions)-1 leave it unchanged.  From -1, the other index the
    component can hold, ArrowUp leaves the index and ArrowDown moves it
    to 0 when the list is not empty. *)
Theorem changeHighlightedSuggestion_saturates (sugg : list string)
  (direction : Direction) (prev : Z) :
  -1 <= prev <= Js.length sugg - 1 ->
  (0 <= prev ->
   0 <= changeHighlightedSuggestion sugg direction prev <= Js.length sugg - 1)
  /\ (changeHighlightedSuggestion sugg direction prev <> prev ->
      0 <= changeHighlightedSuggestion sugg direction prev <= Js.length sugg - 1)
  /\ changeHighlightedSuggestion sugg up prev = Z.max (Z.min prev 0) (prev - 1)
  /\ changeHighlightedSuggestion sugg down prev
     = Z.min (Js.length sugg - 1) (prev + 1)
  /\ changeHighlightedSuggestion sugg up 0 = 0
  /\ changeHighlightedSuggestion sugg down (Js.length sugg - 1)
     = Js.length sugg - 1.
Proof.
  intros H. unfold changeHighlightedSuggestion.
  rewrite Z.ltb_irrefl. simpl (0 >? 0).
  destruct (Z.gtb_spec prev 0), (Z.ltb_spec prev (Js.length sugg - 1));
    destruct direction; repeat split; lia.
Qed.

Lemma changeHighlightedSuggestion_saturates_witness :
  (0 <= 0 ->
   0 <= changeHighlightedSuggestion ["GET"; "POST"] down 0
     <= Js.length ["GET"; "POST"] - 1)
  /\ (changeHighlightedSuggestion ["GET"; "POST"] down 0 <> 0 ->
      0 <= changeHighlightedSuggestion ["GET"; "POST"] down 0
        <= Js.length ["GET"; "POST"] - 1)
  /\ changeHighlightedSuggestion ["GET"; "POST"] up 0 = Z.max (Z.min 0 0) (0 - 1)
  /\ changeHighlightedSuggestion ["GET"; "POST"] down 0
     = Z.min (Js.length ["GET"; "POST"] - 1) (0 + 1)
  /\ changeHighlightedSuggestion ["GET"; "POST"] up 0 = 0
  /\ changeHighlightedSuggestion ["GET"; "POST"] down
       (Js.length ["GET"; "POST"] - 1)
     = Js.length ["GET"; "POST"] - 1.
Proof.
  apply (changeHighlightedSuggestion_saturates ["GET"; "POST"] down 0).
  vm_compute. split; discriminate.
Defined.

(** C9 as stated fails for a starting index outside the list: in the
    reachable state where the index is -1 and three suggestions are shown,
    ArrowUp leaves the index at -1. *)
Lemma arrowUp_below_range_counterexample :
  reachable sample clearedInput
  /\ render sample clearedInput
     = Ok (mkView sampleKeys ["/users"; "/users/1"; "/posts"])
  /\ changeHighlightedSuggestion ["/users"; "/users/1"; "/posts"] up
       (highlightedSuggestion clearedInput) = -1
  /\ ~ (0 <= changeHighlightedSuggestion ["/users"; "/users/1"; "/posts"] up
               (highlightedSuggestion clearedInput)
          <= Js.length ["/users"; "/users/1"; "/posts"] - 1).
Proof.
  repeat split.
  - apply (sample_reachable [TextInputChange "zzz"; TextInputChange ""]).
    vm_compute. reflexivity.
  - vm_compute. intros [H _]. now apply H.
Qed.

(** ** The order of the tag store *)

Lemma noPending_incompleteTag (tags : TagMap) :
  noPending tags <-> incompleteTag tags = None.
Proof.
  split.
  - intros H. destruct (incompleteTag tags) as [k|] eqn:Hk; [|reflexivity].
    apply incompleteTag_Some in Hk. now apply H in Hk.
  - intros H k. now apply incompleteTag_None.
Qed.

Lemma noPending_app (a b : TagMap) :
  noPending (a ++ b) <-> noPending a /\ noPending b.
Proof.
  unfold noPending. split.
  - intros H. split; intros k Hk; apply (H k), in_app_iff; auto.
  - intros [Ha Hb] k Hk. apply in_app_iff in Hk as [Hk|Hk];
      [now apply Ha in Hk | now apply Hb in Hk].
Qed.

Lemma incompleteTag_last (init : TagMap) (k : string) :
  noPending init -> incompleteTag (init ++ [(k, None)]) = Some k.
Proof.
  unfold incompleteTag. induction init as [|[k' v'] init IH]; intros H; simpl.
  - reflexivity.
  - destruct v' as [s|]; simpl.
    + apply IH. intros k0 Hk0. apply (H k0). now right.
    + exfalso. apply (H k'). now left.
Qed.

Lemma set_fresh (m : TagMap) (k : string) (v : option string) :
  ~ In k (Map.keys m) -> Map.set m k v = m ++ [(k, v)].
Proof.
  induction m as [|[k' v'] m IH]; simpl; intros H; [reflexivity|].
  destruct (String.eqb_spec k' k) as [->|Hk]; [tauto|].
  rewrite IH; tauto.
Qed.

Lemma set_last (init : TagMap) (k : string) (v v' : option string) :
  ~ In k (Map.keys init) ->
  Map.set (init ++ [(k, v)]) k v' = init ++ [(k, v')].
Proof.
  induction init as [|[k0 v0] init IH]; simpl; intros H.
  - now rewrite String.eqb_refl.
  - destruct (String.eqb_spec k0 k) as [->|Hk]; [tauto|].
    rewrite IH; tauto.
Qed.

Lemma delete_last (init : TagMap) (k : string) (v : option string) :
  ~ In k (Map.keys init) -> Map.delete (init ++ [(k, v)]) k = init.
Proof.
  induction init as [|[k0 v0] init IH]; simpl; intros H.
  - now rewrite String.eqb_refl.
  - destruct (String.eqb_spec k0 k) as [->|Hk]; [tauto|].
    rewrite IH; tauto.
Qed.

Lemma delete_fresh (m : TagMap) (k : string) :
  ~ In k (Map.keys m) -> Map.delete m k = m.
Proof.
  induction m as [|[k' v'] m IH]; simpl; intros H; [reflexivity|].
  destruct (String.eqb_spec k' k) as [->|Hk]; [tauto|].
  rewrite IH; tauto.
Qed.

Lemma delete_app (a b : TagMap) (k : string) :
  Map.delete (a ++ b) k
  = if Map.has a k then Map.delete a k ++ b else a ++ Map.delete b k.
Proof.
  induction a as [|[k' v'] a IH]; simpl; [reflexivity|].
  destruct (String.eqb_spec k' k) as [->|Hk]; simpl; [reflexivity|].
  rewrite IH. now destruct (Map.has a k).
Qed.

Lemma keys_set_in (m : TagMap) (k : string) (v : option string) :
  In k (Map.keys m) -> Map.keys (Map.set m k v) = Map.keys m.
Proof.
  induction m as [|[k' v'] m IH]; simpl; intros H; [tauto|].
  destruct (String.eqb_spec k' k) as [->|Hk]; simpl; [reflexivity|].
  rewrite IH; [reflexivity|]. destruct H; [contradiction | assumption].
Qed.

Lemma wf_set (m : TagMap) (k : string) (v : option string) :
  Map.wf m -> Map.wf (Map.set m k v).
Proof.
  unfold Map.wf. intros H.
  destruct (in_dec string_dec k (Map.keys m)) as [Hin|Hout].
  - now rewrite keys_set_in.
  - rewrite set_fresh by exact Hout. unfold Map.keys. rewrite map_app. simpl.
    apply NoDup_app; [exact H | repeat constructor; intros [] |].
    intros x Hx [<-|[]]. now apply Hout.
Qed.

Lemma wf_delete (m : TagMap) (k : string) :
  Map.wf m -> Map.wf (Map.delete m k).
Proof.
  unfold Map.wf. induction m as [|[k' v'] m IH]; simpl; intros H; [exact H|].
  inversion H as [|? ? Hout Hm]; subst.
  destruct (String.eqb_spec k' k) as [->|Hk]; simpl; [exact Hm|].
  constructor; [|now apply IH].
  intros Hin. apply keys_delete in Hin. contradiction.
Qed.

Lemma set_In (m : TagMap) (k : string) (v : option string)
  (e : string * option string) :
  In e (Map.set m k v) -> e = (k, v) \/ In e m.
Proof.
  induction m as [|[k' v'] m IH]; simpl.
  - intros [<-|[]]. now left.
  - destruct (String.eqb_spec k' k) as [->|Hk]; simpl.
    + intros [<-|H]; auto.
    + intros [<-|H]; auto. destruct (IH H); auto.
Qed.

Lemma delete_In (m : TagMap) (k : string) (e : string * option string) :
  In e (Map.delete m k) -> In e m.
Proof.
  induction m as [|[k' v'] m IH]; simpl; [tauto|].
  destruct (String.eqb_spec k' k) as [->|Hk]; simpl; auto.
  intros [<-|H]; auto.
Qed.

Lemma wf_last (init : TagMap) (k : string) (v : option string) :
  Map.wf (init ++ [(k, v)]) -> Map.wf init /\ ~ In k (Map.keys init).
Proof.
  unfold Map.wf, Map.keys. rewrite map_app. simpl. intros H.
  split.
  - now apply NoDup_app_remove_r in H.
  - apply NoDup_remove_2 in H. rewrite app_nil_r in H. exact H.
Qed.

Lemma lifoInv_nil : lifoInv [].
Proof.
  repeat split; [constructor | intros k [] |]. left. intros k [].
Qed.

Lemma lifoInv_set_value (tags : TagMap) (k c : string) :
  lifoInv tags -> incompleteTag tags = Some k ->
  lifoInv (Map.set tags k (Some c)).
Proof.
  intros (Hwf & Hne & Hlast) Hk. repeat split.
  - now apply wf_set.
  - intros k' Hk'. apply Hne. rewrite keys_set_in in Hk'; [exact Hk'|].
    apply incompleteTag_Some in Hk. now apply (in_map fst) in Hk.
  - left. destruct Hlast as [Hnone|(init & k0 & -> & Hinit)].
    + apply noPending_incompleteTag in Hnone. congruence.
    + rewrite incompleteTag_last in Hk by exact Hinit. injection Hk as ->.
      apply wf_last in Hwf as [_ Hout]. rewrite set_last by exact Hout.
      apply noPending_app. split; [exact Hinit|].
      intros k' [[=]|[]].
Qed.

Lemma lifoInv_set_path (tags : TagMap) (c : string) :
  lifoInv tags -> incompleteTag tags = None ->
  lifoInv (Map.set tags "path" (Some c)).
Proof.
  intros (Hwf & Hne & Hlast) Hnone. repeat split.
  - now apply wf_set.
  - intros k' Hk'. apply keys_set in Hk' as [->|Hk'];
      [discriminate | now apply Hne].
  - left. intros k Hk. apply set_In in Hk as [[=]|Hk].
    now apply incompleteTag_None in Hk.
Qed.

Lemma lifoInv_set_fresh (tags : TagMap) (c : string) :
  lifoInv tags -> incompleteTag tags = None -> c <> "" ->
  ~ In c (Map.keys tags) ->
  lifoInv (Map.set tags c None).
Proof.
  intros (Hwf & Hne & Hlast) Hnone Hc Hout. repeat split.
  - now apply wf_set.
  - intros k' Hk'. apply keys_set in Hk' as [->|Hk']; [exact Hc | now apply Hne].
  - right. exists tags, c. split; [now apply set_fresh|].
    now apply noPending_incompleteTag.
Qed.

Lemma lifoInv_delete (tags : TagMap) (key : string) :
  lifoInv tags -> lifoInv (Map.delete tags key).
Proof.
  intros (Hwf & Hne & Hlast). repeat split.
  - now apply wf_delete.
  - intros k' Hk'. apply keys_delete in Hk'. now apply Hne.
  - destruct Hlast as [Hnone|(init & k0 & -> & Hinit)].
    + left. intros k Hk. apply delete_In in Hk. now apply Hnone in Hk.
    + rewrite delete_app. destruct (Map.has init key).
      * right. exists (Map.delete init key), k0. split; [reflexivity|].
        intros k Hk. apply delete_In in Hk. now apply Hinit in Hk.
      * simpl. destruct (String.eqb_spec k0 key) as [->|Hk0].
        -- left. now rewrite app_nil_r.
        -- right. now exists init, k0.
Qed.

Lemma lifoInv_removeLast (tags : TagMap) :
  lifoInv tags -> lifoInv (removeLastTagSection tags).
Proof.
  intros Hinv. unfold removeLastTagSection, setTag.
  destruct (Js.truthy (incompleteTag tags)) eqn:Hinc; simpl.
  - now apply lifoInv_delete.
  - destruct Hinv as (Hwf & Hne & Hlast).
    apply (not_truthy_incomplete _ Hne) in Hinc.
    destruct (Array_last tags) as [[k v]|] eqn:Harr; [|now repeat split].
    apply Array_last_In in Harr as [init ->]. simpl.
    destruct (wf_last _ _ _ Hwf) as [Hwf' Hout].
    rewrite set_last by exact Hout. repeat split.
    + unfold Map.wf, Map.keys in *. now rewrite map_app in *.
    + intros k' Hk'. apply Hne. unfold Map.keys in *. now rewrite map_app in *.
    + right. exists init, k. split; [reflexivity|].
      apply noPending_incompleteTag in Hinc. now apply noPending_app in Hinc.
Qed.

(** The two branches of [removeLastTagSection] on any store. *)
Lemma removeLastTagSection_incomplete (tags : TagMap) (k : string) :
  incompleteTag tags = Some k -> k <> "" ->
  removeLastTagSection tags = Map.delete tags k.
Proof.
  intros Hk Hne. unfold removeLastTagSection. rewrite Hk. simpl.
  apply String.eqb_neq in Hne. now rewrite Hne.
Qed.

Lemma removeLastTagSection_complete (init : TagMap) (k : string)
  (v : option string) :
  Map.wf (init ++ [(k, v)]) -> incompleteTag (init ++ [(k, v)]) = None ->
  removeLastTagSection (init ++ [(k, v)]) = init ++ [(k, None)].
Proof.
  intros Hwf Hnone. unfold removeLastTagSection, setTag.
  rewrite Hnone, Array_last_app. simpl.
  apply set_last. now apply wf_last in Hwf.
Qed.

Lemma get_In_keys (item : HttpLog) (k : string) (v : Value) :
  get item k = Some v -> In k (Object_keys item).
Proof.
  induction item as [|[k' v'] item IH]; simpl; [discriminate|].
  destruct (String.eqb_spec k' k) as [->|Hk]; auto.
Qed.

(** A suggestion list for an incomplete tag can only be computed when the
    key of the tag is a field of the first record. *)
Lemma render_incomplete_key (data : list HttpLog) (st : State) (v : View)
  (k : string) :
  render data st = Ok v -> incompleteTag (tags st) = Some k -> k <> "" ->
  In k (viewKeys v).
Proof.
  intros Hv Hk Hne. apply render_Ok in Hv as [Hkeys Hsugg].
  destruct data as [|first data]; [discriminate|].
  injection Hkeys as Hkeys. rewrite <- Hkeys.
  unfold suggestions in Hsugg. rewrite Hk in Hsugg. simpl in Hsugg.
  apply String.eqb_neq in Hne. rewrite Hne in Hsugg. simpl in Hsugg.
  unfold getSuggestions in Hsugg. simpl in Hsugg.
  destruct (get first k) as [fv|] eqn:Hget; [|discriminate].
  now apply get_In_keys in Hget.
Qed.

Lemma prefixFree_fresh (keys : list string) (tags : TagMap) (c : string) :
  prefixFree keys = true -> getMatchingKeys keys tags c <> [] ->
  In c keys -> ~ In c (Map.keys tags).
Proof.
  intros Hfree Hmatch Hc Hin.
  destruct (getMatchingKeys keys tags c) as [|f rest] eqn:Hm; [congruence|].
  assert (Hf : In f (getMatchingKeys keys tags c)) by (rewrite Hm; now left).
  apply filter_In in Hf as [Hf Hcond].
  apply andb_true_iff in Hcond as [Hstart Hhas].
  unfold prefixFree in Hfree. rewrite forallb_forall in Hfree.
  specialize (Hfree c Hc). rewrite forallb_forall in Hfree.
  specialize (Hfree f Hf). rewrite Hstart in Hfree. simpl in Hfree.
  apply String.eqb_eq in Hfree. subst f.
  apply has_In in Hin. rewrite Hin in Hhas. discriminate.
Qed.

Lemma incompleteTag_set_null (tags : TagMap) (c : string) :
  incompleteTag tags = None -> incompleteTag (Map.set tags c None) = Some c.
Proof.
  unfold incompleteTag. induction tags as [|[k v] tags IH]; simpl.
  - reflexivity.
  - destruct v as [s|]; simpl; [|discriminate]. intros H.
    destruct (String.eqb_spec k c) as [->|Hk]; simpl; [reflexivity|].
    now apply IH.
Qed.

Lemma reachable_lifoInv (data : list HttpLog) (st : State) :
  prefixFreeKeys data -> reachable data st -> lifoInv (tags st).
Proof.
  intros Hfree.
  induction 1 as [st rows Hmount|st ev v st' rows _ IH Hv _ Hstep].
  - apply settle_Ok in Hmount as (v & _ & ->). apply lifoInv_nil.
  - apply (step_Ok _ _ _ _ _ _ Hv) in Hstep.
    apply settle_Ok in Hstep as (v' & Hv' & ->). simpl.
    destruct (handle_tags v st ev) as [->|[[s Hs]|[->|(key & _ & ->)]]];
      [exact IH | | now apply lifoInv_removeLast | now apply lifoInv_delete].
    rewrite Hs in *.
    destruct (selectSuggestion_cases (viewKeys v) (viewSuggestions v) st s)
      as [[_ ->]|(c & tags' & _ & Hc & Hcommit & Hsel)]; [exact IH|].
    rewrite Hsel in *. simpl.
    destruct Hcommit as [k Hk Hkne|Hinc Hm|Hinc Hm].
    + now apply lifoInv_set_value.
    + assert (Hnone : incompleteTag (tags st) = None)
        by (apply not_truthy_incomplete; [apply IH | exact Hinc]).
      apply lifoInv_set_fresh; trivial.
      apply (prefixFree_fresh (viewKeys v)); trivial.
      * unfold prefixFreeKeys in Hfree.
        apply render_Ok in Hv as [Hkeys _]. now rewrite Hkeys in Hfree.
      * assert (Hkeys : viewKeys v' = viewKeys v).
        { apply render_Ok in Hv as [Hkeys _].
          apply render_Ok in Hv' as [Hkeys' _]. congruence. }
        rewrite <- Hkeys.
        apply (render_incomplete_key data _ v' c Hv'); [|exact Hc].
        simpl. now apply incompleteTag_set_null.
    + assert (Hnone : incompleteTag (tags st) = None)
        by (apply not_truthy_incomplete; [apply IH | exact Hinc]).
      now apply lifoInv_set_path.
Qed.

(** C6: in every state the mounted component reaches, over field names of
    which none is a proper prefix of another, [removeLastTagSection] acts on
    the most recently inserted entry and on no other: when a tag is
    incomplete it is that last entry and its key is deleted; when no tag is
    incomplete the last entry keeps its key and its value becomes pending;
    an empty store stays empty. *)
Theorem removeLastTagSection_lifo (data : list HttpLog) (st : State) :
  prefixFreeKeys data -> reachable data st ->
  match Array_last (tags st) with
  | None => tags st = [] /\ removeLastTagSection (tags st) = []
  | Some (k, v) =>
      exists init,
        tags st = init ++ [(k, v)] /\ ~ In k (Map.keys init)
        /\ match incompleteTag (tags st) with
           | Some k' =>
               k' = k /\ v = None
               /\ removeLastTagSection (tags st) = Map.delete (tags st) k
               /\ Map.delete (tags st) k = init
           | None =>
               v <> None
               /\ removeLastTagSection (tags st) = init ++ [(k, None)]
           end
  end.
Proof.
  intros Hfree Hreach.
  destruct (reachable_lifoInv data st Hfree Hreach) as (Hwf & Hne & Hlast).
  destruct (Array_last (tags st)) as [[k v]|] eqn:Harr.
  - apply Array_last_In in Harr as [init Htags]. exists init.
    rewrite Htags in *. destruct (wf_last _ _ _ Hwf) as [_ Hout].
    repeat split; trivial.
    destruct Hlast as [Hnone|(init' & k' & Heq & Hinit)].
    + assert (Hinc := proj1 (noPending_incompleteTag _) Hnone).
      rewrite Hinc. split.
      * intros ->. apply (Hnone k), in_app_iff. right. now left.
      * unfold removeLastTagSection, setTag. rewrite Hinc. simpl.
        rewrite Array_last_app. simpl. now apply set_last.
    + apply app_inj_tail in Heq as [<- [= <- ->]].
      rewrite incompleteTag_last by exact Hinit.
      repeat split.
      * unfold removeLastTagSection. rewrite incompleteTag_last by exact Hinit.
        simpl. destruct (String.eqb_spec k "") as [->|_]; [|reflexivity].
        exfalso. apply (Hne ""); [|reflexivity].
        unfold Map.keys. rewrite map_app, in_app_iff. right. now left.
      * now apply delete_last.
  - destruct (tags st) as [|e rest]; [now split|].
    exfalso. clear -Harr. revert e Harr.
    induction rest as [|e' rest IH]; intros e H; simpl in H; [discriminate|].
    now apply (IH e').
Qed.

Lemma removeLastTagSection_lifo_witness :
  match Array_last (tags pendingMethod) with
  | None => tags pendingMethod = [] /\ removeLastTagSection (tags pendingMethod) = []
  | Some (k, v) =>
      exists init,
        tags pendingMethod = init ++ [(k, v)] /\ ~ In k (Map.keys init)
        /\ match incompleteTag (tags pendingMethod) with
           | Some k' =>
               k' = k /\ v = None
               /\ removeLastTagSection (tags pendingMethod)
                  = Map.delete (tags pendingMethod) k
               /\ Map.delete (tags pendingMethod) k = init
           | None =>
               v <> None
               /\ removeLastTagSection (tags pendingMethod) = init ++ [(k, None)]
           end
  end.
Proof.
  apply (removeLastTagSection_lifo sample pendingMethod).
  - vm_compute. reflexivity.
  - apply (sample_reachable [TextInputChange "me"; KeyDown Enter]).
    vm_compute. reflexivity.
Defined.

(** ** Commits and totality *)

(** The field names of [HttpLog] are prefix free, in whatever order the
    first record lists them. *)
Lemma HttpLog_fields_prefixFree (keys : list string) :
  (forall k, In k keys -> In k HttpLog_fields) -> prefixFree keys = true.
Proof.
  intros H. unfold prefixFree. apply forallb_forall. intros a Ha.
  apply forallb_forall. intros b Hb.
  apply H in Ha. apply H in Hb. simpl in Ha, Hb.
  destruct Ha as [<-|[<-|[<-|[<-|[<-|[]]]]]];
    destruct Hb as [<-|[<-|[<-|[<-|[<-|[]]]]]]; reflexivity.
Qed.

(** C3 (the code departs from the claim): the only record has the path
    "st".  With the panel open and an empty tag store, Enter commits the
    highlighted suggestion "st"; it is not a field name, yet it is stored as
    a key with a pending value, because it is a prefix of the unused field
    name "statusCode"; the render that follows throws. *)
Theorem selectSuggestion_prefix_of_field_name :
  reachable stData openedPanel
  /\ render stData openedPanel = Ok (mkView sampleKeys ["st"])
  /\ ~ In "st" sampleKeys
  /\ getMatchingKeys sampleKeys [] "st" = ["statusCode"]
  /\ handle (mkView sampleKeys ["st"]) openedPanel (KeyDown Enter)
     = mkState "" [("st", None)] true 0
  /\ step stData openedPanel (KeyDown Enter) = TypeError.
Proof.
  repeat split.
  - apply (run_reachable stData [KeyDown Enter] initialState).
    + apply mount_reachable. reflexivity.
    + reflexivity.
  - simpl. intros [H|[H|[H|[H|[H|[]]]]]]; discriminate.
Qed.

Lemma suggestions_total (data : list HttpLog) (keys : list string)
  (tags : TagMap) (input : string) :
  Forall HttpLog_typed data -> tags_typed tags ->
  exists sugg, suggestions data keys tags input = Ok sugg.
Proof.
  intros Hdata Htags. rewrite Forall_forall in Hdata.
  assert (Hget : forall k, In k HttpLog_fields ->
            getSuggestions data k input = Ok (matchingValues data k input)).
  { intros k Hk. apply getSuggestions_total. intros item Hitem.
    now apply HttpLog_typed_get; [apply Hdata|]. }
  unfold suggestions.
  destruct (Js.truthy (incompleteTag tags)) eqn:Hinc; simpl.
  - apply truthy_Some in Hinc as (k & Hk & _). rewrite Hk. simpl.
    rewrite Hget; [eauto|].
    apply Htags. apply incompleteTag_Some in Hk. now apply (in_map fst) in Hk.
  - destruct (Map.has tags "path"); simpl.
    + eauto.
    + rewrite Hget by (simpl; auto). simpl.
      destruct (Js.length _ >? 0); eauto.
Qed.

(** C7 (amended): for every non-empty dataset of typed records, every tag
    store whose keys are field names and every input text, computing the
    suggestion list yields a list, and the render with its effects
    completes. *)
Theorem render_total (data : list HttpLog) (st : State) :
  data <> [] -> Forall HttpLog_typed data -> tags_typed (tags st) ->
  (exists v, render data st = Ok v)
  /\ (exists st' rows, settle data st = Ok (st', rows)).
Proof.
  intros Hne Hdata Htags.
  assert (Hrender : exists v, render data st = Ok v).
  { unfold render. destruct data as [|first data]; [congruence|]. simpl.
    destruct (suggestions_total (first :: data) (Object_keys first) (tags st)
                (inputValue st) Hdata Htags) as [sugg ->].
    simpl. eauto. }
  split; [exact Hrender|].
  destruct Hrender as [v Hv]. unfold settle. rewrite Hv. simpl.
  unfold filterResults.
  rewrite (Array_filter_total _ (accepts (viewKeys v) (tags st) (inputValue st))).
  - simpl. eauto.
  - intros item Hitem. apply filterCallback_total; [|exact Htags].
    rewrite Forall_forall in Hdata. now apply Hdata.
Qed.

Lemma render_total_witness :
  (exists v, render sample pendingMethod = Ok v)
  /\ (exists st' rows, settle sample pendingMethod = Ok (st', rows)).
Proof.
  apply (render_total sample pendingMethod).
  - discriminate.
  - exact sample_typed.
  - apply sampleKeys_typed. intros k Hk. simpl in Hk.
    destruct Hk as [<-|[]]. simpl. auto.
Defined.

(** C7 as stated fails: on the empty dataset the field names are
    [Object.keys(undefined)], which throws, so no suggestion list is
    computed and the component does not mount. *)
Lemma render_empty_dataset_counterexample :
  dataKeys [] = TypeError
  /\ render [] initialState = TypeError
  /\ mount [] = TypeError.
Proof. repeat split. Qed.

(** ** What a commit does, away from the prefix case *)

Lemma startsWith_refl (s : string) : Js.startsWith s s = true.
Proof.
  unfold Js.startsWith. induction s as [|c s IH]; simpl; [reflexivity|].
  now destruct (ascii_dec c c).
Qed.

Lemma getMatchingKeys_nil (keys : list string) (tags : TagMap) (c : string) :
  getMatchingKeys keys tags c = [] ->
  existsb (String.eqb c) keys && negb (Map.has tags c) = false.
Proof.
  intros Hnil.
  destruct (existsb (String.eqb c) keys) eqn:Hin; [|reflexivity].
  destruct (Map.has tags c) eqn:Hhas; [reflexivity|].
  apply existsb_exists in Hin as (f & Hf & Heq).
  apply String.eqb_eq in Heq. subst f.
  assert (H : In c (getMatchingKeys keys tags c)).
  { apply filter_In. split; [exact Hf|].
    now rewrite startsWith_refl, Hhas. }
  rewrite Hnil in H. destruct H.
Qed.

(** The three cases of a commit, for a candidate that is not a proper
    prefix of an unused field name; an empty or undefined candidate changes
    nothing. *)
Lemma selectSuggestion_spec (keys sugg : list string) (st : State)
  (suggestion : option string) :
  keysNonEmpty (tags st) ->
  match selectedSuggestion sugg (highlightedSuggestion st) suggestion with
  | None => selectSuggestion keys sugg st suggestion = st
  | Some c =>
      if (c =? "")%string then selectSuggestion keys sugg st suggestion = st
      else
        (forall f, In f keys -> Js.startsWith f c = true ->
                   Map.has (tags st) f = false -> f = c) ->
        tags (selectSuggestion keys sugg st suggestion)
        = match incompleteTag (tags st) with
          | Some k => Map.set (tags st) k (Some c)
          | None =>
              if existsb (String.eqb c) keys && negb (Map.has (tags st) c)
              then Map.set (tags st) c None
              else Map.set (tags st) "path" (Some c)
          end
  end.
Proof.
  intros Hne.
  destruct (selectSuggestion_cases keys sugg st suggestion)
    as [[Hfalsy Hsame]|(c & tags' & Hsel & Hc & Hcommit & Heq)].
  - destruct (selectedSuggestion _ _ _) as [c|]; [|exact Hsame].
    simpl in Hfalsy. apply negb_false_iff in Hfalsy. now rewrite Hfalsy.
  - rewrite Hsel. apply String.eqb_neq in Hc. rewrite Hc.
    intros Hexact. rewrite Heq. simpl.
    destruct Hcommit as [k Hk Hkne|Hinc Hm|Hinc Hm].
    + now rewrite Hk.
    + rewrite (not_truthy_incomplete _ Hne Hinc).
      destruct (getMatchingKeys keys (tags st) c) as [|f rest] eqn:Hmatch;
        [congruence|].
      assert (Hf : In f (getMatchingKeys keys (tags st) c))
        by (rewrite Hmatch; now left).
      apply filter_In in Hf as [Hf Hcond].
      apply andb_true_iff in Hcond as [Hstart Hhas].
      apply negb_true_iff in Hhas.
      assert (f = c) as -> by now apply Hexact.
      rewrite Hhas. simpl. rewrite andb_true_r.
      replace (existsb (String.eqb c) keys) with true; [reflexivity|].
      symmetry. apply existsb_exists. exists c. split; [exact Hf|].
      apply String.eqb_refl.
    + rewrite (not_truthy_incomplete _ Hne Hinc).
      now rewrite (getMatchingKeys_nil _ _ _ Hm).
Qed.

(** ** The examples of the specification *)

Example filter_method_GET :
  filterResults sample sampleKeys [("method", Some "GET")] ""
  = Ok [log1; log3].
Proof. reflexivity. Qed.

Example suggestions_user :
  suggestions sample sampleKeys [] "user" = Ok ["/users"; "/users/1"].
Proof. reflexivity. Qed.

Example filter_user :
  filterResults sample sampleKeys [] "user" = Ok [log1; log2].
Proof. reflexivity. Qed.

Example filter_statusCode_201 :
  filterResults sample sampleKeys [("statusCode", Some "201")] ""
  = Ok [log2].
Proof. reflexivity. Qed.

(** While the input is a prefix of an unused field name the path filter is
    off: "me" selects [method], and every record is reported. *)
Example filter_selecting_method :
  filterResults sample sampleKeys [] "me" = Ok sample.
Proof. reflexivity. Qed.

Example suggestions_case_insensitive :
  suggestions sample sampleKeys [("method", None)] "p" = Ok ["POST"].
Proof. reflexivity. Qed.

Example session_method_POST :
  (s <- mount sample ;;
   run sample s [TextInputChange "me"; KeyDown Enter; TextInputChange "P";
                 KeyDown ArrowDown; KeyDown Enter])
  = Ok (mkState "" [("method", Some "POST")] true 0).
Proof. reflexivity. Qed.

Example session_backspace_reopens :
  (s <- mount sample ;;
   run sample s [TextInputChange "me"; KeyDown Enter; TextInputChange "P";
                 KeyDown Enter; KeyDown Backspace])
  = Ok (mkState "" [("method", None)] true 0).
Proof. reflexivity. Qed.

Example escape_when_closed :
  handle (mkView sampleKeys ["/users"; "/users/1"; "/posts"]) initialState
    (KeyDown Escape) = initialState.
Proof. reflexivity. Qed.

(** * Further properties of the component *)

(** ** [getSuggestions] *)

Lemma getSuggestions_missing (data : list HttpLog) (field input : string)
  (item : HttpLog) :
  In item data -> get item field = None ->
  getSuggestions data field input = TypeError.
Proof.
  intros Hin Hnone. unfold getSuggestions.
  assert (H : Array_filter
                (fun s => str <- toString s ;;
                          Ok (Js.includes (Js.toLowerCase str)
                                (Js.toLowerCase input)))
                (map (fun i => get i field) data) = TypeError).
  { induction data as [|first data IH]; [destruct Hin|]. simpl.
    destruct Hin as [->|Hin].
    - now rewrite Hnone.
    - rewrite (IH Hin). now destruct (toString (get first field)). }
  now rewrite H.
Qed.

Lemma field_everywhere_dec (data : list HttpLog) (field : string) :
  (forall item, In item data -> exists v, get item field = Some v)
  \/ exists item, In item data /\ get item field = None.
Proof.
  induction data as [|first data [IH|(item & Hin & Hnone)]].
  - left. intros item [].
  - destruct (get first field) as [v|] eqn:Hget.
    + left. intros item [<-|Hin]; [now exists v | now apply IH].
    + right. exists first. split; [now left | exact Hget].
  - right. exists item. split; [now right | exact Hnone].
Qed.

Lemma getSuggestions_Ok (data : list HttpLog) (field input : string)
  (l : list string) :
  getSuggestions data field input = Ok l ->
  (forall item, In item data -> exists v, get item field = Some v)
  /\ l = matchingValues data field input.
Proof.
  intros Hok.
  destruct (field_everywhere_dec data field) as [Hall|(item & Hin & Hnone)].
  - split; [exact Hall|].
    rewrite (getSuggestions_total data field input Hall) in Hok. congruence.
  - rewrite (getSuggestions_missing data field input item Hin Hnone) in Hok.
    discriminate.
Qed.

Lemma fieldValues_In (data : list HttpLog) (field c : string) :
  In c (fieldValues data field) <->
  exists item v, In item data /\ get item field = Some v
                 /\ Value_toString v = c.
Proof.
  unfold fieldValues. rewrite in_flat_map. split.
  - intros (item & Hin & Hc). destruct (get item field) as [v|] eqn:Hget.
    + destruct Hc as [<-|[]]. now exists item, v.
    + destruct Hc.
  - intros (item & v & Hin & Hget & <-). exists item. split; [exact Hin|].
    rewrite Hget. now left.
Qed.

Lemma matchingValues_In (data : list HttpLog) (field input c : string) :
  In c (matchingValues data field input) <->
  exists item v, In item data /\ get item field = Some v
                 /\ Value_toString v = c
                 /\ Js.includes (Js.toLowerCase c) (Js.toLowerCase input) = true.
Proof.
  unfold matchingValues. rewrite distinct_In, filter_In, fieldValues_In.
  unfold containsIgnoringCase. split.
  - intros [(item & v & Hin & Hget & Hc) Hinc]. now exists item, v.
  - intros (item & v & Hin & Hget & Hc & Hinc). split; [|exact Hinc].
    now exists item, v.
Qed.

(** X1: when [getSuggestions] returns a list, the list has no duplicate
    and holds exactly the stringified values of the field, over the
    records of the dataset, whose lowercase form contains the lowercase
    input. *)
Theorem getSuggestions_members (data : list HttpLog) (field input : string)
  (l : list string) :
  getSuggestions data field input = Ok l ->
  NoDup l
  /\ forall c, In c l <->
       exists item v, In item data /\ get item field = Some v
                      /\ Value_toString v = c
                      /\ Js.includes (Js.toLowerCase c) (Js.toLowerCase input)
                         = true.
Proof.
  intros Hok. apply getSuggestions_Ok in Hok as [_ ->]. split.
  - unfold matchingValues. apply distinct_NoDup.
  - intros c. apply matchingValues_In.
Qed.

Lemma getSuggestions_members_witness :
  NoDup ["POST"]
  /\ forall c, In c ["POST"] <->
       exists item v, In item sample /\ get item "method" = Some v
                      /\ Value_toString v = c
                      /\ Js.includes (Js.toLowerCase c) (Js.toLowerCase "p")
                         = true.
Proof.
  apply (getSuggestions_members sample "method" "p" ["POST"]).
  reflexivity.
Defined.

(** X2: [getSuggestions] throws exactly when some record of the dataset
    lacks the field; in particular it never throws on the empty dataset. *)
Theorem getSuggestions_throws (data : list HttpLog) (field input : string) :
  getSuggestions data field input = TypeError <->
  exists item, In item data /\ get item field = None.
Proof.
  split.
  - intros Hthrow.
    destruct (field_everywhere_dec data field) as [Hall|Hmiss]; [|exact Hmiss].
    rewrite (getSuggestions_total data field input Hall) in Hthrow.
    discriminate.
  - intros (item & Hin & Hnone).
    now apply (getSuggestions_missing data field input item).
Qed.

(** ** The suggestion list *)

(** X3: the suggestion list never holds a string twice, whenever the field
    names do not (the keys of an object are distinct); the rows of the panel
    use the suggestions as their React keys. *)
Theorem suggestions_NoDup (data : list HttpLog) (keys : list string)
  (tags : TagMap) (input : string) (l : list string) :
  NoDup keys -> suggestions data keys tags input = Ok l -> NoDup l.
Proof.
  intros Hkeys. unfold suggestions.
  destruct (negb (Js.truthy (incompleteTag tags))).
  - intros H. apply bind_Ok in H as (paths & Hpaths & H).
    assert (Hnd : NoDup paths).
    { destruct (negb (Map.has tags "path")).
      - apply getSuggestions_Ok in Hpaths as [_ ->]. apply distinct_NoDup.
      - injection Hpaths as <-. constructor. }
    destruct (Js.length paths >? 0); injection H as <-; [exact Hnd|].
    now apply NoDup_filter.
  - intros H. apply getSuggestions_Ok in H as [_ ->]. apply distinct_NoDup.
Qed.

Lemma suggestions_NoDup_witness : NoDup ["/users"; "/users/1"].
Proof.
  apply (suggestions_NoDup sample sampleKeys [] "user").
  - unfold sampleKeys. repeat constructor; simpl; intuition discriminate.
  - reflexivity.
Defined.

(** X4: [getMatchingKeys] returns the field names that extend the input
    and are not keys of the tag store. *)
Theorem getMatchingKeys_members (keys : list string) (tags : TagMap)
  (input f : string) :
  In f (getMatchingKeys keys tags input) <->
  In f keys /\ (exists rest, f = (input ++ rest)%string)
  /\ ~ In f (Map.keys tags).
Proof.
  unfold getMatchingKeys, Js.startsWith.
  rewrite filter_In, andb_true_iff, negb_true_iff, prefix_app.
  rewrite <- has_In.
  destruct (Map.has tags f); intuition congruence.
Qed.

Lemma filterCallback_selecting (keys : list string) (tags : TagMap)
  (input : string) (item : HttpLog) :
  getMatchingKeys keys tags input <> [] ->
  filterCallback keys tags input item = filterCallback keys tags "" item.
Proof.
  intros Hmatch. unfold filterCallback.
  destruct (tagsLoop item tags) as [[|]|]; simpl; trivial.
  replace (existsb _ keys) with true; [now rewrite andb_false_r|].
  symmetry. apply existsb_exists.
  destruct (getMatchingKeys keys tags input) as [|f rest] eqn:Hm; [congruence|].
  assert (Hf : In f (getMatchingKeys keys tags input)) by (rewrite Hm; now left).
  apply filter_In in Hf as [Hf Hcond]. now exists f.
Qed.

(** X5: while [getMatchingKeys] has a field name to offer for the input,
    the filter effect ignores the input text: it reports what it reports
    for the empty input. *)
Theorem filterResults_selecting (data : list HttpLog) (keys : list string)
  (tags : TagMap) (input : string) :
  getMatchingKeys keys tags input <> [] ->
  filterResults data keys tags input = filterResults data keys tags "".
Proof.
  intros Hmatch. unfold filterResults. apply Array_filter_ext.
  intros item _. now apply filterCallback_selecting.
Qed.

Lemma filterResults_selecting_witness :
  filterResults sample sampleKeys [] "me" = filterResults sample sampleKeys [] "".
Proof.
  apply (filterResults_selecting sample sampleKeys [] "me").
  vm_compute. discriminate.
Defined.

(** ** The filter effect on any records *)

Lemma Array_filter_Ok {A : Type} (f : A -> result bool) (p : A -> bool)
  (arr rows : list A) :
  (forall x b, In x arr -> f x = Ok b -> b = p x) ->
  Array_filter f arr = Ok rows ->
  rows = filter p arr /\ forall x, In x arr -> f x = Ok (p x).
Proof.
  intros Hp. revert rows. induction arr as [|x arr IH]; simpl; intros rows H.
  - injection H as <-. split; [reflexivity | intros x []].
  - apply bind_Ok in H as (b & Hb & H).
    apply bind_Ok in H as (rest & Hrest & H). injection H as <-.
    assert (Hx := Hp x b (or_introl eq_refl) Hb). subst b.
    destruct (IH (fun y c Hy => Hp y c (or_intror Hy)) rest Hrest) as [-> Hall].
    split; [reflexivity|]. intros y [<-|Hy]; [exact Hb | now apply Hall].
Qed.

Lemma tagsLoop_sound (item : HttpLog) (tags : TagMap) (b : bool) :
  tagsLoop item tags = Ok b -> b = forallb (tagHolds item) tags.
Proof.
  induction tags as [|[k v] tags IH]; simpl.
  - now intros [= <-].
  - unfold tagHolds at 1. simpl. destruct v as [s|]; simpl; [|exact IH].
    destruct (String.eqb_spec s "") as [->|Hs]; simpl; [exact IH|].
    destruct (get item k) as [fv|]; simpl; [|discriminate].
    destruct (Value_toString fv =? s)%string; simpl; [exact IH|].
    now intros [= <-].
Qed.

Lemma filterCallback_sound (keys : list string) (tags : TagMap)
  (input : string) (item : HttpLog) (b : bool) :
  filterCallback keys tags input item = Ok b ->
  b = accepts keys tags input item.
Proof.
  unfold filterCallback, accepts. intros H.
  apply bind_Ok in H as (completed & Hloop & H).
  apply tagsLoop_sound in Hloop. rewrite <- Hloop.
  destruct completed; simpl; [|congruence].
  rewrite string_length_pos in H. fold (isSelectingTag keys tags input) in H.
  destruct (negb (input =? "")%string && negb (isSelectingTag keys tags input));
    [|congruence].
  unfold pathIncludes in H.
  destruct (get item "path") as [[p|n]|]; congruence.
Qed.

Lemma filterResults_Ok (data : list HttpLog) (keys : list string)
  (tags : TagMap) (input : string) (rows : list HttpLog) :
  filterResults data keys tags input = Ok rows ->
  rows = filter (accepts keys tags input) data
  /\ forall item, In item data ->
       filterCallback keys tags input item
       = Ok (accepts keys tags input item).
Proof.
  apply Array_filter_Ok. intros item b _. apply filterCallback_sound.
Qed.

Lemma filter_idem {A : Type} (p : A -> bool) (l : list A) :
  filter p (filter p l) = filter p l.
Proof.
  rewrite filter_filter_and. apply filter_ext. intros x. now destruct (p x).
Qed.

Lemma filter_narrow {A : Type} (p q : A -> bool) (l : list A) :
  (forall x, q x = true -> p x = true) ->
  filter q l = filter q (filter p l).
Proof.
  intros H. rewrite filter_filter_and. apply filter_ext. intros x.
  specialize (H x). destruct (q x), (p x); trivial. now discriminate H.
Qed.

(** X6: whenever the filter effect completes, on typed records or not, it
    reports the records of the dataset that [accepts] accepts, in dataset
    order, and filtering the reported rows again reports them unchanged. *)
Theorem filterResults_idempotent (data : list HttpLog) (keys : list string)
  (tags : TagMap) (input : string) (rows : list HttpLog) :
  filterResults data keys tags input = Ok rows ->
  rows = filter (accepts keys tags input) data
  /\ filterResults rows keys tags input = Ok rows.
Proof.
  intros H. apply filterResults_Ok in H as [-> Hall]. split; [reflexivity|].
  unfold filterResults.
  rewrite (Array_filter_total _ (accepts keys tags input)).
  - now rewrite filter_idem.
  - intros item Hin. apply filter_In in Hin as [Hin _]. now apply Hall.
Qed.

Lemma filterResults_idempotent_witness :
  [log1; log3] = filter (accepts sampleKeys [("method", Some "GET")] "") sample
  /\ filterResults [log1; log3] sampleKeys [("method", Some "GET")] ""
     = Ok [log1; log3].
Proof.
  apply (filterResults_idempotent sample sampleKeys [("method", Some "GET")] "").
  reflexivity.
Defined.

Lemma has_app (a b : TagMap) (f : string) :
  Map.has (a ++ b) f = Map.has a f || Map.has b f.
Proof. unfold Map.has. apply existsb_app. Qed.

Lemma existsb_impl {A : Type} (p q : A -> bool) (l : list A) :
  (forall x, p x = true -> q x = true) ->
  existsb p l = true -> existsb q l = true.
Proof.
  intros H. rewrite !existsb_exists. intros (x & Hx & Hp). exists x. auto.
Qed.

Lemma accepts_new_tag (keys : list string) (tags : TagMap) (k : string)
  (v : option string) (input : string) (item : HttpLog) :
  accepts keys (tags ++ [(k, v)]) input item = true ->
  accepts keys tags input item = true.
Proof.
  unfold accepts. rewrite forallb_app, !andb_true_iff.
  intros [[Htags _] Hpath]. split; [exact Htags|].
  destruct (negb (input =? "")%string); simpl in *; [|reflexivity].
  destruct (isSelectingTag keys tags input) eqn:Hsel; simpl; [reflexivity|].
  destruct (isSelectingTag keys (tags ++ [(k, v)]) input) eqn:Hsel';
    simpl in Hpath; [|exact Hpath].
  exfalso. apply (existsb_impl _
    (fun key => Js.startsWith key input && negb (Map.has tags key))) in Hsel'.
  - unfold isSelectingTag in Hsel. congruence.
  - intros f. rewrite has_app, negb_orb, !andb_true_iff. tauto.
Qed.

(** X7: a tag set under a new key never widens the view: the rows
    reported with the tag are rows reported without it. *)
Theorem filterResults_new_tag (data : list HttpLog) (keys : list string)
  (tags : TagMap) (k : string) (v : option string) (input : string)
  (rows rows' : list HttpLog) :
  ~ In k (Map.keys tags) ->
  filterResults data keys tags input = Ok rows ->
  filterResults data keys (setTag tags k v) input = Ok rows' ->
  rows' = filter (accepts keys (setTag tags k v) input) rows.
Proof.
  intros Hfresh Hrows Hrows'. unfold setTag in *.
  rewrite set_fresh in * by exact Hfresh.
  apply filterResults_Ok in Hrows as [-> _].
  apply filterResults_Ok in Hrows' as [-> _].
  apply filter_narrow. intros item. apply accepts_new_tag.
Qed.

Lemma filterResults_new_tag_witness :
  [log1] = filter (accepts sampleKeys
                     (setTag [("method", Some "GET")] "statusCode" (Some "200")) "")
             [log1; log3].
Proof.
  apply (filterResults_new_tag sample sampleKeys [("method", Some "GET")]
           "statusCode" (Some "200") "" [log1; log3] [log1]).
  - simpl. intros [H|[]]. discriminate.
  - reflexivity.
  - reflexivity.
Defined.

Lemma append_assoc (a b c : string) :
  ((a ++ b) ++ c = a ++ (b ++ c))%string.
Proof. induction a as [|x a IH]; simpl; [reflexivity | now rewrite IH]. Qed.

Lemma startsWith_shorter (f input more : string) :
  Js.startsWith f (input ++ more) = true -> Js.startsWith f input = true.
Proof.
  unfold Js.startsWith. rewrite !prefix_app. intros [rest ->].
  exists (more ++ rest)%string. apply append_assoc.
Qed.

Lemma includes_shorter (p input more : string) :
  Js.includes p (input ++ more) = true -> Js.includes p input = true.
Proof.
  rewrite !includes_substring. intros (a & b & ->).
  exists a, (more ++ b)%string. now rewrite append_assoc.
Qed.

Lemma accepts_longer_input (keys : list string) (tags : TagMap)
  (input more : string) (item : HttpLog) :
  accepts keys tags (input ++ more) item = true ->
  accepts keys tags input item = true.
Proof.
  unfold accepts. rewrite !andb_true_iff. intros [Htags Hpath].
  split; [exact Htags|].
  destruct (String.eqb_spec input "") as [->|Hne]; simpl; [reflexivity|].
  destruct (isSelectingTag keys tags input) eqn:Hsel; simpl; [reflexivity|].
  assert (Hne' : ((input ++ more) =? "")%string = false).
  { apply String.eqb_neq. destruct input; [congruence | discriminate]. }
  assert (Hsel' : isSelectingTag keys tags (input ++ more) = false).
  { destruct (isSelectingTag keys tags (input ++ more)) eqn:H; [|reflexivity].
    apply (existsb_impl _
      (fun key => Js.startsWith key input && negb (Map.has tags key))) in H.
    - unfold isSelectingTag in Hsel. congruence.
    - intros f. rewrite !andb_true_iff. intros [Hs Hh]. split; [|exact Hh].
      now apply (startsWith_shorter f input more). }
  rewrite Hne', Hsel' in Hpath. simpl in Hpath.
  destruct (get item "path") as [[p|n]|]; try discriminate.
  now apply (includes_shorter p input more).
Qed.

(** X8: typing further characters never widens the view: the rows
    reported for a longer input text are rows reported for the text it
    extends. *)
Theorem filterResults_longer_input (data : list HttpLog) (keys : list string)
  (tags : TagMap) (input more : string) (rows rows' : list HttpLog) :
  filterResults data keys tags input = Ok rows ->
  filterResults data keys tags (input ++ more) = Ok rows' ->
  rows' = filter (accepts keys tags (input ++ more)) rows.
Proof.
  intros Hrows Hrows'.
  apply filterResults_Ok in Hrows as [-> _].
  apply filterResults_Ok in Hrows' as [-> _].
  apply filter_narrow. intros item. apply accepts_longer_input.
Qed.

Lemma filterResults_longer_input_witness :
  [log2] = filter (accepts sampleKeys [] ("/users" ++ "/1")) [log1; log2].
Proof.
  apply (filterResults_longer_input sample sampleKeys [] "/users" "/1"
           [log1; log2] [log2]); reflexivity.
Defined.

(** X9: a value that [getSuggestions] offers for a field selects at least
    one record: with that value as the only tag and the input cleared, as
    after the commit, the filter effect completes and reports a non-empty
    list of records whose stringified field is the value. *)
Theorem filterResults_suggested_value (data : list HttpLog)
  (keys : list string) (field input c : string) (l : list string) :
  getSuggestions data field input = Ok l -> In c l -> c <> "" ->
  exists rows,
    filterResults data keys [(field, Some c)] "" = Ok rows
    /\ rows <> []
    /\ forall item, In item rows ->
         exists v, get item field = Some v /\ Value_toString v = c.
Proof.
  intros Hok Hc Hne.
  destruct (getSuggestions_Ok _ _ _ _ Hok) as [Hall ->].
  apply matchingValues_In in Hc as (item0 & v0 & Hin0 & Hget0 & Hv0 & _).
  set (p := fun item : HttpLog =>
              match get item field with
              | Some v => (Value_toString v =? c)%string
              | None => false
              end).
  exists (filter p data). repeat split.
  - unfold filterResults. apply Array_filter_total. intros item Hin.
    unfold filterCallback, p. simpl.
    apply String.eqb_neq in Hne. rewrite Hne. simpl.
    destruct (Hall item Hin) as [v ->]. simpl.
    now destruct (Value_toString v =? c)%string.
  - intros Hnil.
    assert (H : In item0 (filter p data)).
    { apply filter_In. split; [exact Hin0|]. unfold p. rewrite Hget0, Hv0.
      apply String.eqb_refl. }
    rewrite Hnil in H. destruct H.
  - intros item Hin. apply filter_In in Hin as [_ Hp]. unfold p in Hp.
    destruct (get item field) as [v|]; [|discriminate].
    exists v. split; [reflexivity|]. now apply String.eqb_eq.
Qed.

Lemma filterResults_suggested_value_witness :
  exists rows,
    filterResults sample sampleKeys [("method", Some "POST")] "" = Ok rows
    /\ rows <> []
    /\ forall item, In item rows ->
         exists v, get item "method" = Some v /\ Value_toString v = "POST".
Proof.
  apply (filterResults_suggested_value sample sampleKeys "method" "p" "POST"
           ["POST"]).
  - reflexivity.
  - now left.
  - discriminate.
Defined.

Lemma rowKey_filter (accept : HttpLog -> bool) (data : list HttpLog) :
  NoDup (map rowKey data) -> NoDup (map rowKey (filter accept data)).
Proof.
  induction data as [|row data IH]; simpl; intros Hnd; [constructor|].
  apply NoDup_cons_iff in Hnd as [Hfresh Hnd].
  destruct (accept row); simpl; [|now apply IH].
  apply NoDup_cons_iff. split; [|now apply IH].
  contradict Hfresh.
  apply in_map_iff in Hfresh as (other & Hkey & Hother).
  apply filter_In in Hother as [Hother _].
  rewrite <- Hkey. now apply in_map.
Qed.

(** X10: the rows handed to the table keep distinct row keys: when the
    [id]s of the dataset are distinct, so are those of the reported rows. *)
Theorem filterResults_rowKey (data : list HttpLog) (keys : list string)
  (tags : TagMap) (input : string) (rows : list HttpLog) :
  NoDup (map rowKey data) ->
  filterResults data keys tags input = Ok rows ->
  NoDup (map rowKey rows).
Proof.
  intros Hnd H. apply filterResults_Ok in H as [-> _].
  now apply rowKey_filter.
Qed.

Lemma filterResults_rowKey_witness : NoDup (map rowKey [log1; log2]).
Proof.
  apply (filterResults_rowKey sample sampleKeys [] "user" [log1; log2]).
  - repeat constructor; simpl; intuition discriminate.
  - reflexivity.
Defined.

(** ** Renders, effects and keys *)

Lemma clampHighlight_idem (sugg : list string) (h : Z) :
  clampHighlight sugg (clampHighlight sugg h) = clampHighlight sugg h.
Proof.
  unfold clampHighlight.
  destruct (Z.geb_spec h (Js.length sugg)); [|now destruct (Z.geb_spec h (Js.length sugg)); [lia|]].
  destruct (Z.geb_spec (Js.length sugg - 1) (Js.length sugg)); [lia | reflexivity].
Qed.

Lemma clampHighlight_in_range (sugg : list string) (h : Z) :
  h <= Js.length sugg - 1 -> clampHighlight sugg h = h.
Proof.
  unfold clampHighlight. intros H.
  destruct (Z.geb_spec h (Js.length sugg)); [lia | reflexivity].
Qed.

Lemma settle_unfold (data : list HttpLog) (st st' : State)
  (rows : list HttpLog) :
  settle data st = Ok (st', rows) ->
  exists v, render data st = Ok v
    /\ filterResults data (viewKeys v) (tags st) (inputValue st) = Ok rows
    /\ st' = mkState (inputValue st) (tags st) (showSuggestions st)
               (clampHighlight (viewSuggestions v) (highlightedSuggestion st)).
Proof.
  unfold settle. intros H.
  apply bind_Ok in H as (v & Hv & H).
  apply bind_Ok in H as (rows' & Hrows & H).
  injection H as <- <-. now exists v.
Qed.

Lemma settle_fold (data : list HttpLog) (st : State) (v : View)
  (rows : list HttpLog) :
  render data st = Ok v ->
  filterResults data (viewKeys v) (tags st) (inputValue st) = Ok rows ->
  settle data st
  = Ok (mkState (inputValue st) (tags st) (showSuggestions st)
          (clampHighlight (viewSuggestions v) (highlightedSuggestion st)),
        rows).
Proof. unfold settle. intros -> H. simpl. now rewrite H. Qed.

(** X11: the effects reach a fixed point in one pass: rendering the
    settled state again and running the effects again clamps nothing more
    and reports the same rows. *)
Theorem settle_idempotent (data : list HttpLog) (st st' : State)
  (rows : list HttpLog) :
  settle data st = Ok (st', rows) -> settle data st' = Ok (st', rows).
Proof.
  intros H. apply settle_unfold in H as (v & Hv & Hrows & ->).
  rewrite (settle_fold data _ v rows); simpl.
  - now rewrite clampHighlight_idem.
  - now rewrite <- Hv; apply render_ext.
  - exact Hrows.
Qed.

Lemma settle_idempotent_witness :
  settle sample (mkState "" [] true 2) = Ok (mkState "" [] true 2, sample).
Proof.
  apply (settle_idempotent sample (mkState "" [] true 7)).
  reflexivity.
Defined.

Lemma reachable_settled (data : list HttpLog) (st : State) :
  reachable data st -> exists rows, settle data st = Ok (st, rows).
Proof.
  assert (Hagain : forall s s' rows,
             settle data s = Ok (s', rows) -> settle data s' = Ok (s', rows)).
  { intros s s' rows H. apply settle_unfold in H as (v & Hv & Hrows & ->).
    rewrite (settle_fold data _ v rows); simpl.
    - now rewrite clampHighlight_idem.
    - now rewrite <- Hv; apply render_ext.
    - exact Hrows. }
  intros [st' rows Hmount|st0 ev v st' rows _ Hv _ Hstep]; exists rows.
  - now apply (Hagain initialState).
  - apply (step_Ok _ _ _ _ _ _ Hv) in Hstep.
    now apply (Hagain (handle v st0 ev)).
Qed.

Lemma reachable_render (data : list HttpLog) (st : State) :
  reachable data st ->
  exists v rows,
    render data st = Ok v
    /\ filterResults data (viewKeys v) (tags st) (inputValue st) = Ok rows
    /\ highlightedSuggestion st <= Js.length (viewSuggestions v) - 1.
Proof.
  intros Hreach. destruct (reachable_settled data st Hreach) as [rows Hs].
  apply settle_unfold in Hs as (v & Hv & Hrows & _).
  exists v, rows. repeat split; trivial.
  now apply (reachable_highlight data st Hreach).
Qed.

(** X12: in every state the component reaches, Escape closes the panel
    and changes nothing else, effects included; with the panel already
    closed the state is unchanged. *)
Theorem escape_only_closes (data : list HttpLog) (st : State) :
  reachable data st ->
  exists rows,
    step data st (KeyDown Escape)
    = Ok (mkState (inputValue st) (tags st) false (highlightedSuggestion st),
          rows)
    /\ (showSuggestions st = false ->
        step data st (KeyDown Escape) = Ok (st, rows)).
Proof.
  intros Hreach.
  destruct (reachable_render data st Hreach) as (v & rows & Hv & Hrows & Hh).
  exists rows.
  assert (Hstep : step data st (KeyDown Escape)
                  = Ok (mkState (inputValue st) (tags st) false
                          (highlightedSuggestion st), rows)).
  { unfold step. rewrite Hv. simpl.
    rewrite (settle_fold data _ v rows); simpl; trivial.
    now rewrite clampHighlight_in_range. }
  split; [exact Hstep|].
  intros Hclosed. rewrite Hstep. destruct st; simpl in *. now subst.
Qed.

Lemma escape_only_closes_witness :
  exists rows,
    step sample pendingMethod (KeyDown Escape)
    = Ok (mkState (inputValue pendingMethod) (tags pendingMethod) false
            (highlightedSuggestion pendingMethod), rows)
    /\ (showSuggestions pendingMethod = false ->
        step sample pendingMethod (KeyDown Escape) = Ok (pendingMethod, rows)).
Proof.
  apply (escape_only_closes sample pendingMethod).
  apply (sample_reachable [TextInputChange "me"; KeyDown Enter]).
  vm_compute. reflexivity.
Defined.

Lemma index_of_nat {A : Type} (arr : list A) (i : nat) :
  Js.index arr (Z.of_nat i) = nth_error arr i.
Proof.
  unfold Js.index. destruct (Z.ltb_spec (Z.of_nat i) 0); [lia|].
  now rewrite Nat2Z.id.
Qed.

Lemma selectSuggestion_highlight_irrelevant (keys sugg : list string)
  (st : State) (s : string) (h : Z) :
  s <> "" ->
  selectSuggestion keys sugg
    (mkState (inputValue st) (tags st) (showSuggestions st) h) (Some s)
  = selectSuggestion keys sugg st (Some s).
Proof.
  intros Hs. unfold selectSuggestion, selectedSuggestion. simpl.
  apply String.eqb_neq in Hs. rewrite Hs. simpl. now rewrite Hs.
Qed.

(** X13: hovering a row and pressing Enter commits what a click on the
    row commits: for a non-empty suggestion the two runs end in the same
    state or both throw. *)
Theorem hover_enter_is_click (data : list HttpLog) (st : State) (v : View)
  (i : nat) (s : string) :
  reachable data st -> render data st = Ok v ->
  enabled v st (SuggestionMouseEnter i) = true ->
  nth_error (viewSuggestions v) i = Some s -> s <> "" ->
  run data st [SuggestionMouseEnter i; KeyDown Enter]
  = run data st [SuggestionClick i].
Proof.
  intros Hreach Hv Hen Hnth Hs.
  destruct (reachable_render data st Hreach) as (v' & rows & Hv' & Hrows & _).
  assert (v' = v) as -> by congruence.
  set (hovered := mkState (inputValue st) (tags st) (showSuggestions st)
                    (Z.of_nat i)).
  assert (Hen' := Hen).
  assert (Hclick : enabled v st (SuggestionClick i) = true) by exact Hen.
  assert (Hshow : showSuggestions st = true /\
                  Z.of_nat i <= Js.length (viewSuggestions v) - 1).
  { simpl in Hen. unfold suggestionsVisible in Hen.
    apply andb_true_iff in Hen as [Hvis Hlt].
    apply andb_true_iff in Hvis as [Hshow _].
    apply Z.ltb_lt in Hlt. split; [exact Hshow | lia]. }
  destruct Hshow as [Hshow Hlt].
  assert (Hvh : render data hovered = Ok v)
    by (rewrite <- Hv; now apply render_ext).
  assert (Hhover : step data st (SuggestionMouseEnter i) = Ok (hovered, rows)).
  { unfold step. rewrite Hv. simpl. fold hovered.
    rewrite (settle_fold data hovered v rows); trivial.
    simpl. now rewrite clampHighlight_in_range. }
  assert (Henter : step data hovered (KeyDown Enter)
                   = step data st (SuggestionClick i)).
  { unfold step. rewrite Hv, Hvh. simpl. unfold handleEnter. simpl.
    rewrite Hshow, Hnth. simpl. f_equal.
    rewrite <- (selectSuggestion_highlight_irrelevant _ _ st s (Z.of_nat i) Hs).
    unfold hovered, selectSuggestion, selectedSuggestion. simpl.
    rewrite index_of_nat, Hnth. simpl.
    apply String.eqb_neq in Hs. rewrite Hs. simpl. now rewrite Hs. }
  unfold run. rewrite Hv. cbn [bind]. rewrite Hen', Hclick, Hhover.
  cbn [bind fst]. rewrite Hvh. cbn [bind enabled]. now rewrite Henter.
Qed.

Lemma hover_enter_is_click_witness :
  run sample pendingMethod [SuggestionMouseEnter 1; KeyDown Enter]
  = run sample pendingMethod [SuggestionClick 1].
Proof.
  apply (hover_enter_is_click sample pendingMethod
           (mkView sampleKeys ["GET"; "POST"]) 1 "POST").
  - apply (sample_reachable [TextInputChange "me"; KeyDown Enter]).
    vm_compute. reflexivity.
  - reflexivity.
  - reflexivity.
  - reflexivity.
  - discriminate.
Defined.

(** X14: with the panel open and no row highlighted (the index -1 that an
    empty list leaves), Enter commits nothing: the state is unchanged. *)
Theorem enter_without_highlight (data : list HttpLog) (st : State) :
  reachable data st -> showSuggestions st = true ->
  highlightedSuggestion st = -1 ->
  exists rows, step data st (KeyDown Enter) = Ok (st, rows).
Proof.
  intros Hreach Hshow Hh.
  destruct (reachable_settled data st Hreach) as [rows Hs].
  exists rows. destruct (settle_unfold _ _ _ _ Hs) as (v & Hv & _ & _).
  unfold step. rewrite Hv. simpl. unfold handleEnter. rewrite Hshow. simpl.
  unfold selectSuggestion, selectedSuggestion. rewrite Hh. simpl. exact Hs.
Qed.

Lemma enter_without_highlight_witness :
  exists rows, step sample clearedInput (KeyDown Enter) = Ok (clearedInput, rows).
Proof.
  apply (enter_without_highlight sample clearedInput).
  - apply (sample_reachable [TextInputChange "zzz"; TextInputChange ""]).
    vm_compute. reflexivity.
  - reflexivity.
  - reflexivity.
Defined.

(** X15: from an index within [0, len-1], [n] presses of ArrowDown reach
    row [min (h + n) (len - 1)] and [n] presses of ArrowUp reach row
    [max (h - n) 0]; ArrowDown then ArrowUp returns to the row unless it
    is the last one, ArrowUp then ArrowDown unless it is the first. *)
Theorem arrows_iterate (sugg : list string) (h : Z) (n : nat) :
  0 <= h <= Js.length sugg - 1 ->
  Nat.iter n (changeHighlightedSuggestion sugg down) h
  = Z.min (h + Z.of_nat n) (Js.length sugg - 1)
  /\ Nat.iter n (changeHighlightedSuggestion sugg up) h
     = Z.max (h - Z.of_nat n) 0
  /\ (h < Js.length sugg - 1 ->
      changeHighlightedSuggestion sugg up
        (changeHighlightedSuggestion sugg down h) = h)
  /\ (0 < h ->
      changeHighlightedSuggestion sugg down
        (changeHighlightedSuggestion sugg up h) = h).
Proof.
  intros Hh. repeat split.
  - induction n as [|n IH]; [simpl; lia|].
    rewrite Nat.iter_succ, IH. unfold changeHighlightedSuggestion.
    destruct (Z.ltb_spec (Z.min (h + Z.of_nat n) (Js.length sugg - 1))
                (Js.length sugg - 1)); lia.
  - induction n as [|n IH]; [simpl; lia|].
    rewrite Nat.iter_succ, IH. unfold changeHighlightedSuggestion.
    destruct (Z.gtb_spec (Z.max (h - Z.of_nat n) 0) 0); lia.
  - intros Hlt. unfold changeHighlightedSuggestion.
    destruct (Z.ltb_spec h (Js.length sugg - 1)); [|lia].
    destruct (Z.gtb_spec (h + 1) 0); lia.
  - intros Hgt. unfold changeHighlightedSuggestion.
    destruct (Z.gtb_spec h 0); [|lia].
    destruct (Z.ltb_spec (h - 1) (Js.length sugg - 1)); lia.
Qed.

Lemma arrows_iterate_witness :
  Nat.iter 5 (changeHighlightedSuggestion ["/users"; "/users/1"; "/posts"] down) 0
  = Z.min (0 + Z.of_nat 5) (Js.length ["/users"; "/users/1"; "/posts"] - 1)
  /\ Nat.iter 5 (changeHighlightedSuggestion ["/users"; "/users/1"; "/posts"] up) 0
     = Z.max (0 - Z.of_nat 5) 0
  /\ (0 < Js.length ["/users"; "/users/1"; "/posts"] - 1 ->
      changeHighlightedSuggestion ["/users"; "/users/1"; "/posts"] up
        (changeHighlightedSuggestion ["/users"; "/users/1"; "/posts"] down 0) = 0)
  /\ (0 < 0 ->
      changeHighlightedSuggestion ["/users"; "/users/1"; "/posts"] down
        (changeHighlightedSuggestion ["/users"; "/users/1"; "/posts"] up 0) = 0).
Proof.
  apply (arrows_iterate ["/users"; "/users/1"; "/posts"] 0 5).
  vm_compute. split; discriminate.
Defined.

(** ** Tags: set, commit, Backspace, click *)

Lemma lookup_set_same (tags : TagMap) (k : string) (v : option string) :
  Map.lookup (Map.set tags k v) k = Some v.
Proof.
  induction tags as [|[k' v'] tags IH]; simpl.
  - now rewrite String.eqb_refl.
  - destruct (String.eqb_spec k' k) as [->|Hk]; simpl.
    + now rewrite String.eqb_refl.
    + apply String.eqb_neq in Hk. now rewrite Hk.
Qed.

Lemma lookup_set_other (tags : TagMap) (k k' : string) (v : option string) :
  k' <> k -> Map.lookup (Map.set tags k v) k' = Map.lookup tags k'.
Proof.
  intros Hne. induction tags as [|[k0 v0] tags IH]; simpl.
  - apply not_eq_sym, String.eqb_neq in Hne. now rewrite Hne.
  - destruct (String.eqb_spec k0 k) as [->|Hk]; simpl.
    + apply not_eq_sym, String.eqb_neq in Hne. now rewrite Hne.
    + now rewrite IH.
Qed.

Lemma not_has_In (tags : TagMap) (k : string) :
  Map.has tags k = false <-> ~ In k (Map.keys tags).
Proof.
  rewrite <- has_In. now destruct (Map.has tags k).
Qed.

(** X16: [setTag] writes one key and leaves the others alone: the key
    then maps to the value, every other key maps to what it did, an
    existing key keeps its place and a new key goes last, and no key
    appears twice. *)
Theorem setTag_lookup (tags : TagMap) (k : string) (v : option string) :
  Map.wf tags ->
  Map.lookup (setTag tags k v) k = Some v
  /\ (forall k', k' <> k ->
        Map.lookup (setTag tags k v) k' = Map.lookup tags k')
  /\ Map.keys (setTag tags k v)
     = (if Map.has tags k then Map.keys tags else Map.keys tags ++ [k])
  /\ Map.wf (setTag tags k v).
Proof.
  intros Hwf. unfold setTag. repeat split.
  - apply lookup_set_same.
  - intros k' Hne. now apply lookup_set_other.
  - destruct (Map.has tags k) eqn:Hhas.
    + apply keys_set_in. now apply has_In.
    + rewrite set_fresh by now apply not_has_In.
      unfold Map.keys. now rewrite map_app.
  - now apply wf_set.
Qed.

Lemma setTag_lookup_witness :
  Map.lookup (setTag [("method", None)] "method" (Some "GET")) "method"
  = Some (Some "GET")
  /\ (forall k', k' <> "method" ->
        Map.lookup (setTag [("method", None)] "method" (Some "GET")) k'
        = Map.lookup [("method", None)] k')
  /\ Map.keys (setTag [("method", None)] "method" (Some "GET"))
     = (if Map.has [("method", None)] "method"
        then Map.keys [("method", None)]
        else Map.keys [("method", None)] ++ ["method"])
  /\ Map.wf (setTag [("method", None)] "method" (Some "GET")).
Proof.
  apply (setTag_lookup [("method", None)] "method" (Some "GET")).
  repeat constructor. intros [].
Defined.

Lemma getMatchingKeys_self (keys : list string) (tags : TagMap)
  (input f : string) :
  In f (getMatchingKeys keys tags input) ->
  In f (getMatchingKeys keys tags f) /\ ~ In f (Map.keys tags).
Proof.
  intros Hf. apply filter_In in Hf as [Hf Hcond].
  apply andb_true_iff in Hcond as [_ Hhas]. split.
  - apply filter_In. split; [exact Hf|]. now rewrite startsWith_refl.
  - apply not_has_In. now apply negb_true_iff.
Qed.

(** X17: every field name that [getMatchingKeys] offers for the input
    begins a tag when it is committed while no tag is incomplete: the name
    goes last in the store with a pending value, the input is cleared and
    the highlight returns to 0; committing a value next completes that
    tag. *)
Theorem commit_field_then_value (keys sugg keys' sugg' : list string)
  (st : State) (f c : string) :
  noPending (tags st) ->
  In f (getMatchingKeys keys (tags st) (inputValue st)) ->
  f <> "" -> c <> "" ->
  selectSuggestion keys sugg st (Some f)
  = mkState "" (tags st ++ [(f, None)]) (showSuggestions st) 0
  /\ selectSuggestion keys' sugg'
       (selectSuggestion keys sugg st (Some f)) (Some c)
     = mkState "" (tags st ++ [(f, Some c)]) (showSuggestions st) 0.
Proof.
  intros Hnone Hf Hfne Hcne.
  destruct (getMatchingKeys_self _ _ _ _ Hf) as [Hself Hfresh].
  assert (Hinc := proj1 (noPending_incompleteTag _) Hnone).
  assert (Hfirst : selectSuggestion keys sugg st (Some f)
                   = mkState "" (tags st ++ [(f, None)]) (showSuggestions st) 0).
  { unfold selectSuggestion, selectedSuggestion. simpl.
    apply String.eqb_neq in Hfne. rewrite Hfne. simpl. rewrite Hfne, Hinc. simpl.
    rewrite length_pos.
    destruct (getMatchingKeys keys (tags st) f); [destruct Hself|].
    unfold setTag. now rewrite set_fresh. }
  split; [exact Hfirst|]. rewrite Hfirst.
  unfold selectSuggestion, selectedSuggestion. simpl.
  apply String.eqb_neq in Hcne. rewrite Hcne. simpl. rewrite Hcne.
  rewrite incompleteTag_last by exact Hnone. simpl.
  apply String.eqb_neq in Hfne. rewrite Hfne. simpl.
  unfold setTag. now rewrite set_last.
Qed.

Lemma commit_field_then_value_witness :
  selectSuggestion sampleKeys ["method"] (mkState "me" [] true 0) (Some "method")
  = mkState "" ([] ++ [("method", None)]) true 0
  /\ selectSuggestion sampleKeys ["GET"; "POST"]
       (selectSuggestion sampleKeys ["method"] (mkState "me" [] true 0)
          (Some "method")) (Some "GET")
     = mkState "" ([] ++ [("method", Some "GET")]) true 0.
Proof.
  apply (commit_field_then_value sampleKeys ["method"] sampleKeys
           ["GET"; "POST"] (mkState "me" [] true 0) "method" "GET").
  - intros k [].
  - simpl. now left.
  - discriminate.
  - discriminate.
Defined.

(** X18: beginning a tag leaves the table as it is: with the input
    cleared, as after the commit, the filter effect reports the same rows
    with the new pending entry as without it. *)
Theorem filterResults_pending_tag (data : list HttpLog) (keys : list string)
  (tags : TagMap) (f : string) :
  ~ In f (Map.keys tags) ->
  filterResults data keys (setTag tags f None) ""
  = filterResults data keys tags "".
Proof.
  intros Hfresh. unfold setTag. rewrite set_fresh by exact Hfresh.
  unfold filterResults. apply Array_filter_ext. intros item _.
  unfold filterCallback.
  rewrite (tagsLoop_falsy item tags [] f None eq_refl), app_nil_r.
  now destruct (tagsLoop item tags) as [[|]|].
Qed.

Lemma filterResults_pending_tag_witness :
  filterResults sample sampleKeys (setTag [("method", Some "GET")] "path" None) ""
  = filterResults sample sampleKeys [("method", Some "GET")] "".
Proof.
  apply (filterResults_pending_tag sample sampleKeys [("method", Some "GET")]
           "path").
  simpl. intros [H|[]]. discriminate.
Defined.

(** X19: Backspace on the empty input takes back the last commit step.
    After a field name was committed it restores the store; after a value
    was committed it restores the pending entry; after a path was committed
    directly it leaves [path] in the store with a pending value. *)
Theorem backspace_after_commit (tags : TagMap) (k c : string) :
  Map.wf tags -> keysNonEmpty tags -> k <> "" ->
  (noPending tags -> ~ In k (Map.keys tags) ->
   removeLastTagSection (setTag tags k None) = tags)
  /\ (forall init, tags = init ++ [(k, None)] -> noPending init ->
      removeLastTagSection (setTag tags k (Some c)) = tags)
  /\ (noPending tags -> ~ In "path" (Map.keys tags) ->
      removeLastTagSection (setTag tags "path" (Some c))
      = tags ++ [("path", None)]).
Proof.
  intros Hwf Hne Hk. unfold setTag. repeat split.
  - intros Hnone Hfresh. rewrite set_fresh by exact Hfresh.
    rewrite (removeLastTagSection_incomplete _ k).
    + now apply delete_last.
    + now apply incompleteTag_last.
    + exact Hk.
  - intros init -> Hinit. destruct (wf_last _ _ _ Hwf) as [Hwf' Hout].
    rewrite set_last by exact Hout.
    apply removeLastTagSection_complete.
    + unfold Map.wf, Map.keys in *. now rewrite map_app in *.
    + apply noPending_incompleteTag, noPending_app. split; [exact Hinit|].
      intros k0 [[=]|[]].
  - intros Hnone Hfresh. rewrite set_fresh by exact Hfresh.
    apply removeLastTagSection_complete.
    + unfold Map.wf, Map.keys. rewrite map_app. simpl.
      apply NoDup_app; [exact Hwf | repeat constructor; intros [] |].
      intros x Hx [<-|[]]. now apply Hfresh.
    + apply noPending_incompleteTag, noPending_app. split; [exact Hnone|].
      intros k0 [[=]|[]].
Qed.

Lemma backspace_after_commit_witness :
  (noPending [("method", Some "GET")] ->
   ~ In "domain" (Map.keys [("method", Some "GET")]) ->
   removeLastTagSection (setTag [("method", Some "GET")] "domain" None)
   = [("method", Some "GET")])
  /\ (forall init, [("method", Some "GET")] = init ++ [("domain", None)] ->
      noPending init ->
      removeLastTagSection
        (setTag [("method", Some "GET")] "domain" (Some "api.example.com"))
      = [("method", Some "GET")])
  /\ (noPending [("method", Some "GET")] ->
      ~ In "path" (Map.keys [("method", Some "GET")]) ->
      removeLastTagSection
        (setTag [("method", Some "GET")] "path" (Some "api.example.com"))
      = [("method", Some "GET")] ++ [("path", None)]).
Proof.
  apply (backspace_after_commit [("method", Some "GET")] "domain"
           "api.example.com").
  - repeat constructor. intros [].
  - intros k [<-|[]]. discriminate.
  - discriminate.
Defined.

Lemma removeLastTagSection_nil_iter (n : nat) :
  Nat.iter n removeLastTagSection [] = [].
Proof. induction n as [|n IH]; simpl; [reflexivity | now rewrite IH]. Qed.

Lemma backspace_clears_complete (tags : TagMap) :
  Map.wf tags -> keysNonEmpty tags -> noPending tags ->
  Nat.iter (2 * List.length tags) removeLastTagSection tags = [].
Proof.
  induction tags as [|[k v] init IH] using rev_ind; intros Hwf Hne Hnone.
  - reflexivity.
  - destruct (wf_last _ _ _ Hwf) as [Hwf' Hout].
    apply noPending_app in Hnone as Hsplit. destruct Hsplit as [Hinit _].
    assert (Hk : k <> "").
    { apply Hne. unfold Map.keys. rewrite map_app, in_app_iff. right. now left. }
    assert (Hne' : keysNonEmpty init).
    { intros k' Hk'. apply Hne. unfold Map.keys. rewrite map_app, in_app_iff.
      now left. }
    rewrite length_app. simpl List.length.
    replace (2 * (List.length init + 1))%nat
      with (S (S (2 * List.length init))) by lia.
    rewrite !Nat.iter_succ_r.
    rewrite removeLastTagSection_complete;
      [|exact Hwf | now apply noPending_incompleteTag].
    rewrite (removeLastTagSection_incomplete _ k);
      [|now apply incompleteTag_last | exact Hk].
    rewrite delete_last by exact Hout. now apply IH.
Qed.

(** X20: holding Backspace empties the store: on a store whose pending
    entry, if any, is the last one, twice as many presses as there are
    entries remove every tag (a completed tag takes two presses, a pending
    one takes one, and a press on the empty store does nothing). *)
Theorem backspace_clears (tags : TagMap) :
  Map.wf tags -> keysNonEmpty tags -> pendingLast tags ->
  Nat.iter (2 * List.length tags) removeLastTagSection tags = [].
Proof.
  intros Hwf Hne [Hnone|(init & k & -> & Hinit)].
  - now apply backspace_clears_complete.
  - destruct (wf_last _ _ _ Hwf) as [Hwf' Hout].
    assert (Hk : k <> "").
    { apply Hne. unfold Map.keys. rewrite map_app, in_app_iff. right. now left. }
    assert (Hne' : keysNonEmpty init).
    { intros k' Hk'. apply Hne. unfold Map.keys. rewrite map_app, in_app_iff.
      now left. }
    rewrite length_app. simpl List.length.
    replace (2 * (List.length init + 1))%nat
      with (S (S (2 * List.length init))) by lia.
    rewrite Nat.iter_succ, Nat.iter_succ_r.
    rewrite (removeLastTagSection_incomplete (init ++ [(k, None)]) k);
      [|now apply incompleteTag_last | exact Hk].
    rewrite delete_last by exact Hout.
    now rewrite backspace_clears_complete.
Qed.

Lemma backspace_clears_witness :
  Nat.iter (2 * List.length [("method", Some "GET"); ("domain", None)])
    removeLastTagSection [("method", Some "GET"); ("domain", None)] = [].
Proof.
  apply (backspace_clears [("method", Some "GET"); ("domain", None)]).
  - repeat constructor; simpl; intuition discriminate.
  - intros k [<-|[<-|[]]]; discriminate.
  - right. exists [("method", Some "GET")], "domain". split; [reflexivity|].
    intros k [[=]|[]].
Defined.

(** ** What the tag store of a mounted component looks like *)

Lemma valuesNonEmpty_set_value (tags : TagMap) (k c : string) :
  c <> "" -> valuesNonEmpty tags -> valuesNonEmpty (Map.set tags k (Some c)).
Proof.
  intros Hc Hv k' v' Hin. apply set_In in Hin as [[= -> ->]|Hin];
    [exact Hc | now apply (Hv k')].
Qed.

Lemma valuesNonEmpty_set_null (tags : TagMap) (k : string) :
  valuesNonEmpty tags -> valuesNonEmpty (Map.set tags k None).
Proof.
  intros Hv k' v' Hin. apply set_In in Hin as [[=]|Hin]. now apply (Hv k').
Qed.

Lemma valuesNonEmpty_delete (tags : TagMap) (k : string) :
  valuesNonEmpty tags -> valuesNonEmpty (Map.delete tags k).
Proof. intros Hv k' v' Hin. apply delete_In in Hin. now apply (Hv k'). Qed.

Lemma removeLastTagSection_shape (tags : TagMap) :
  Map.wf tags /\ valuesNonEmpty tags ->
  Map.wf (removeLastTagSection tags)
  /\ valuesNonEmpty (removeLastTagSection tags).
Proof.
  intros [Hwf Hv]. unfold removeLastTagSection, setTag.
  destruct (negb (Js.truthy (incompleteTag tags))).
  - destruct (Array_last tags) as [[k v]|]; [|now split].
    split; [now apply wf_set | now apply valuesNonEmpty_set_null].
  - split; [now apply wf_delete | now apply valuesNonEmpty_delete].
Qed.

Lemma handle_shape (v : View) (st : State) (ev : Event) :
  Map.wf (tags st) /\ valuesNonEmpty (tags st) ->
  Map.wf (tags (handle v st ev)) /\ valuesNonEmpty (tags (handle v st ev)).
Proof.
  intros [Hwf Hv].
  destruct (handle_tags v st ev) as [->|[[s ->]|[->|(key & _ & ->)]]].
  - now split.
  - destruct (selectSuggestion_cases (viewKeys v) (viewSuggestions v) st s)
      as [[_ ->]|(c & tags' & _ & Hc & Hcommit & ->)]; [now split|].
    simpl. destruct Hcommit; (split; [now apply wf_set|]).
    + now apply valuesNonEmpty_set_value.
    + now apply valuesNonEmpty_set_null.
    + now apply valuesNonEmpty_set_value.
  - now apply removeLastTagSection_shape.
  - split; [now apply wf_delete | now apply valuesNonEmpty_delete].
Qed.

Lemma reachable_shape (data : list HttpLog) (st : State) :
  reachable data st -> Map.wf (tags st) /\ valuesNonEmpty (tags st).
Proof.
  induction 1 as [st rows Hmount|st ev v st' rows _ IH Hv _ Hstep].
  - apply settle_Ok in Hmount as (v & _ & ->). simpl.
    split; [constructor | intros k v' []].
  - apply (step_Ok _ _ _ _ _ _ Hv), settle_Ok in Hstep as (v' & _ & ->).
    simpl. now apply handle_shape.
Qed.

Lemma pending_is_incompleteTag (tags : TagMap) (k : string) :
  (pendingCount tags <= 1)%nat -> In (k, None) tags ->
  incompleteTag tags = Some k.
Proof.
  unfold pendingCount, incompleteTag.
  induction tags as [|[k' v'] tags IH]; simpl; [tauto|].
  destruct v' as [s|]; simpl.
  - intros Hle [[=]|Hin]. now apply IH.
  - intros Hle [[= ->]|Hin]; [reflexivity|]. exfalso.
    assert (Hzero : pendingCount tags = 0%nat) by (unfold pendingCount; lia).
    apply pendingCount_zero in Hzero.
    now apply (incompleteTag_None tags k) in Hin.
Qed.

(** X21: in every state the component reaches, the tag store holds no key
    twice and no empty-string value, so every entry is on screen: as a chip
    when it has a value, as the label of the input when it is the
    incomplete tag. *)
Theorem reachable_tags_rendered (data : list HttpLog) (st : State) :
  reachable data st ->
  Map.wf (tags st)
  /\ (forall k v, In (k, Some v) (tags st) -> v <> "")
  /\ (forall e, In e (tags st) ->
        In e (chips (tags st))
        \/ (snd e = None /\ incompleteTag (tags st) = Some (fst e))).
Proof.
  intros Hreach. destruct (reachable_shape data st Hreach) as [Hwf Hv].
  destruct (reachable_storeInv data st Hreach) as [_ Hle].
  repeat split; trivial.
  intros [k [v|]] Hin.
  - left. unfold chips. apply filter_In. split; [exact Hin|]. simpl.
    apply negb_true_iff, String.eqb_neq. now apply (Hv k).
  - right. split; [reflexivity|]. now apply pending_is_incompleteTag.
Qed.

Lemma reachable_tags_rendered_witness :
  Map.wf (tags pendingMethod)
  /\ (forall k v, In (k, Some v) (tags pendingMethod) -> v <> "")
  /\ (forall e, In e (tags pendingMethod) ->
        In e (chips (tags pendingMethod))
        \/ (snd e = None /\ incompleteTag (tags pendingMethod) = Some (fst e))).
Proof.
  apply (reachable_tags_rendered sample pendingMethod).
  apply (sample_reachable [TextInputChange "me"; KeyDown Enter]).
  vm_compute. reflexivity.
Defined.

Lemma keys_removeLast (tags : TagMap) (k : string) :
  In k (Map.keys (removeLastTagSection tags)) -> In k (Map.keys tags).
Proof.
  unfold removeLastTagSection, setTag.
  destruct (negb (Js.truthy (incompleteTag tags))).
  - destruct (Array_last tags) as [[k0 v0]|] eqn:Hlast; [|trivial].
    intros Hk. apply keys_set in Hk as [->|Hk]; [|exact Hk].
    apply Array_last_In in Hlast as [init ->].
    unfold Map.keys. rewrite map_app, in_app_iff. right. now left.
  - apply keys_delete.
Qed.

Lemma reachable_keys (data : list HttpLog) (st : State) (keys : list string) :
  reachable data st -> dataKeys data = Ok keys ->
  forall k, In k (Map.keys (tags st)) -> k = "path" \/ In k keys.
Proof.
  intros Hreach Hkeys.
  induction Hreach as [st rows Hmount|st ev v st' rows Hreach IH Hv _ Hstep].
  - apply settle_Ok in Hmount as (v & _ & ->). intros k [].
  - apply (step_Ok _ _ _ _ _ _ Hv) in Hstep.
    apply settle_Ok in Hstep as (v' & Hv' & ->). simpl.
    destruct (handle_tags v st ev) as [->|[[s Hs]|[->|(key & _ & ->)]]].
    + exact IH.
    + rewrite Hs in *.
      destruct (selectSuggestion_cases (viewKeys v) (viewSuggestions v) st s)
        as [[_ ->]|(c & tags' & _ & Hc & Hcommit & Hsel)]; [exact IH|].
      rewrite Hsel in *. simpl. intros k Hk.
      destruct Hcommit as [k0 Hk0 Hk0ne|Hinc Hm|Hinc Hm];
        apply keys_set in Hk as [->|Hk]; try (now apply IH).
      * apply IH. apply incompleteTag_Some in Hk0.
        now apply (in_map fst) in Hk0.
      * right. destruct (reachable_storeInv data st Hreach) as [Hne _].
        apply (not_truthy_incomplete _ Hne) in Hinc.
        apply render_Ok in Hv' as Hv''. destruct Hv'' as [Hkeys' _].
        assert (viewKeys v' = keys) as <- by congruence.
        apply (render_incomplete_key data _ v' c Hv'); [|exact Hc].
        simpl. now apply incompleteTag_set_null.
      * now left.
    + intros k Hk. apply keys_removeLast in Hk. now apply IH.
    + intros k Hk. apply keys_delete in Hk. now apply IH.
Qed.

(** X22: in every state the component reaches, every key of the tag store
    is [path] or a field name of the first record: a commit that stores
    another key is followed by a render that throws. *)
Theorem reachable_keys_are_fields (data : list HttpLog) (st : State)
  (keys : list string) :
  reachable data st -> dataKeys data = Ok keys ->
  incl (Map.keys (tags st)) ("path" :: keys).
Proof.
  intros Hreach Hkeys k Hk. simpl.
  destruct (reachable_keys data st keys Hreach Hkeys k Hk) as [->|Hin].
  - now left.
  - now right.
Qed.

Lemma reachable_keys_are_fields_witness :
  incl (Map.keys (tags pendingMethod)) ("path" :: sampleKeys).
Proof.
  apply (reachable_keys_are_fields sample pendingMethod sampleKeys).
  - apply (sample_reachable [TextInputChange "me"; KeyDown Enter]).
    vm_compute. reflexivity.
  - reflexivity.
Defined.

Lemma delete_not_In (tags : TagMap) (k : string) :
  Map.wf tags -> ~ In k (Map.keys (Map.delete tags k)).
Proof.
  unfold Map.wf. induction tags as [|[k' v'] tags IH]; simpl; intros Hwf;
    [tauto|].
  inversion Hwf as [|? ? Hout Hrest]; subst.
  destruct (String.eqb_spec k' k) as [->|Hk]; simpl; [exact Hout|].
  intros [H|H]; [contradiction | now apply IH].
Qed.

Lemma lookup_delete_other (tags : TagMap) (k k' : string) :
  k' <> k -> Map.lookup (Map.delete tags k) k' = Map.lookup tags k'.
Proof.
  intros Hne. induction tags as [|[k0 v0] tags IH]; simpl; [reflexivity|].
  destruct (String.eqb_spec k0 k) as [->|Hk]; simpl.
  - apply not_eq_sym, String.eqb_neq in Hne. now rewrite Hne.
  - now rewrite IH.
Qed.

Lemma incompleteTag_delete_value (tags : TagMap) (key v : string) :
  Map.lookup tags key = Some (Some v) ->
  incompleteTag (Map.delete tags key) = incompleteTag tags.
Proof.
  unfold incompleteTag. induction tags as [|[k0 v0] tags IH]; simpl;
    [reflexivity|].
  destruct (String.eqb_spec k0 key) as [->|Hk]; simpl.
  - now intros [= ->].
  - intros Hl. destruct v0; simpl; [now apply IH | reflexivity].
Qed.

(** X23: a click on a chip deletes that tag and nothing else: the key
    leaves the store, every other key maps to what it did, the incomplete
    tag stays the incomplete tag, and the input text, the panel and the
    highlight are untouched. *)
Theorem tag_click_deletes (data : list HttpLog) (st : State) (v : View)
  (key : string) :
  reachable data st -> enabled v st (TagClick key) = true ->
  Map.has (tags (handle v st (TagClick key))) key = false
  /\ (forall k', k' <> key ->
        Map.lookup (tags (handle v st (TagClick key))) k'
        = Map.lookup (tags st) k')
  /\ incompleteTag (tags (handle v st (TagClick key)))
     = incompleteTag (tags st)
  /\ handle v st (TagClick key)
     = mkState (inputValue st) (tags (handle v st (TagClick key)))
         (showSuggestions st) (highlightedSuggestion st).
Proof.
  intros Hreach Hen. destruct (reachable_shape data st Hreach) as [Hwf _].
  simpl in *. repeat split.
  - apply not_has_In. now apply delete_not_In.
  - intros k' Hne. now apply lookup_delete_other.
  - destruct (Map.lookup (tags st) key) as [[value|]|] eqn:Hl;
      try discriminate.
    now apply (incompleteTag_delete_value _ _ value).
Qed.

Lemma tag_click_deletes_witness :
  Map.has (tags (handle (mkView sampleKeys ["/users"; "/users/1"; "/posts"])
                   (mkState "" [("method", Some "POST")] true 0)
                   (TagClick "method"))) "method" = false
  /\ (forall k', k' <> "method" ->
        Map.lookup (tags (handle (mkView sampleKeys ["/users"; "/users/1"; "/posts"])
                           (mkState "" [("method", Some "POST")] true 0)
                           (TagClick "method"))) k'
        = Map.lookup (tags (mkState "" [("method", Some "POST")] true 0)) k')
  /\ incompleteTag
       (tags (handle (mkView sampleKeys ["/users"; "/users/1"; "/posts"])
                (mkState "" [("method", Some "POST")] true 0)
                (TagClick "method")))
     = incompleteTag (tags (mkState "" [("method", Some "POST")] true 0))
  /\ handle (mkView sampleKeys ["/users"; "/users/1"; "/posts"])
       (mkState "" [("method", Some "POST")] true 0) (TagClick "method")
     = mkState (inputValue (mkState "" [("method", Some "POST")] true 0))
         (tags (handle (mkView sampleKeys ["/users"; "/users/1"; "/posts"])
                  (mkState "" [("method", Some "POST")] true 0)
                  (TagClick "method")))
         (showSuggestions (mkState "" [("method", Some "POST")] true 0))
         (highlightedSuggestion (mkState "" [("method", Some "POST")] true 0)).
Proof.
  apply (tag_click_deletes sample (mkState "" [("method", Some "POST")] true 0)
           (mkView sampleKeys ["/users"; "/users/1"; "/posts"]) "method").
  - apply (sample_reachable
             [TextInputChange "me"; KeyDown Enter; TextInputChange "P";
              KeyDown ArrowDown; KeyDown Enter]).
    vm_compute. reflexivity.
  - reflexivity.
Defined.

(** ** Keys that do not commit *)

(** X24: with the panel closed, Enter opens it and commits nothing, even
    when a row is highlighted: the tag store, the input text and the
    highlight are unchanged. *)
Theorem enter_opens_panel (data : list HttpLog) (st : State) :
  reachable data st -> showSuggestions st = false ->
  exists rows,
    step data st (KeyDown Enter)
    = Ok (mkState (inputValue st) (tags st) true (highlightedSuggestion st),
          rows).
Proof.
  intros Hreach Hclosed.
  destruct (reachable_render data st Hreach) as (v & rows & Hv & Hrows & Hh).
  exists rows. unfold step. rewrite Hv. simpl.
  unfold handleEnter. rewrite Hclosed. simpl.
  rewrite (settle_fold data _ v rows); simpl; trivial.
  now rewrite clampHighlight_in_range.
Qed.

Lemma enter_opens_panel_witness :
  exists rows,
    step sample initialState (KeyDown Enter)
    = Ok (mkState (inputValue initialState) (tags initialState) true
            (highlightedSuggestion initialState), rows).
Proof.
  apply (enter_opens_panel sample initialState).
  - apply (sample_reachable []). reflexivity.
  - reflexivity.
Defined.

(** X25: while the input holds text, Backspace is left to the text field:
    the handler changes nothing, so no tag is removed. *)
Theorem backspace_with_text (data : list HttpLog) (st : State) :
  reachable data st -> inputValue st <> "" ->
  exists rows, step data st (KeyDown Backspace) = Ok (st, rows).
Proof.
  intros Hreach Htext.
  destruct (reachable_settled data st Hreach) as [rows Hs].
  exists rows. destruct (settle_unfold _ _ _ _ Hs) as (v & Hv & _ & _).
  unfold step. rewrite Hv. simpl.
  rewrite string_length_pos. apply String.eqb_neq in Htext. rewrite Htext.
  exact Hs.
Qed.

Lemma backspace_with_text_witness :
  exists rows,
    step sample (mkState "me" [] true 0) (KeyDown Backspace)
    = Ok (mkState "me" [] true 0, rows).
Proof.
  apply (backspace_with_text sample (mkState "me" [] true 0)).
  - apply (sample_reachable [TextInputChange "me"]). reflexivity.
  - discriminate.
Defined.

Lemma handle_keys_kept (v : View) (st : State) (ev : Event) (k : string) :
  isCommit ev = false ->
  In k (Map.keys (tags (handle v st ev))) -> In k (Map.keys (tags st)).
Proof.
  destruct ev as [input|key|i|i|key|]; simpl; trivial; try discriminate.
  - destruct key; simpl; trivial; try discriminate.
    intros _. destruct (Z.of_nat (String.length (inputValue st)) >? 0);
      simpl; [trivial | apply keys_removeLast].
  - intros _. apply keys_delete.
Qed.

Lemma settle_typed (data : list HttpLog) (st : State) :
  data <> [] -> Forall HttpLog_typed data -> tags_typed (tags st) ->
  exists st' rows, settle data st = Ok (st', rows).
Proof.
  intros Hne Hdata Htags. unfold settle, render.
  destruct data as [|first data]; [congruence|]. simpl.
  destruct (suggestions_total (first :: data) (Object_keys first) (tags st)
              (inputValue st) Hdata Htags) as [sugg ->].
  simpl. unfold filterResults.
  rewrite (Array_filter_total _
             (accepts (Object_keys first) (tags st) (inputValue st))).
  - simpl. eauto.
  - intros item Hitem. apply filterCallback_total; [|exact Htags].
    rewrite Forall_forall in Hdata. now apply Hdata.
Qed.

(** X26: over typed records whose first record has the fields of
    [HttpLog] only, only a commit can make the component throw: from every
    state it reaches, typing, the arrows, Escape, Backspace, hovering, a
    click on a chip and a click outside are followed by a render and
    effects that complete. *)
Theorem only_commits_throw (data : list HttpLog) (keys : list string)
  (st : State) (ev : Event) :
  Forall HttpLog_typed data -> dataKeys data = Ok keys ->
  (forall k, In k keys -> In k HttpLog_fields) ->
  reachable data st -> isCommit ev = false ->
  exists st' rows, step data st ev = Ok (st', rows).
Proof.
  intros Hdata Hkeys Hexact Hreach Hev.
  destruct (reachable_render data st Hreach) as (v & _ & Hv & _ & _).
  unfold step. rewrite Hv. simpl. apply settle_typed; trivial.
  - destruct data; [discriminate | congruence].
  - intros k Hk. apply (handle_keys_kept v st ev k Hev) in Hk.
    destruct (reachable_keys data st keys Hreach Hkeys k Hk) as [->|Hin].
    + simpl. auto.
    + now apply Hexact.
Qed.

Lemma only_commits_throw_witness :
  exists st' rows, step sample pendingMethod (TextInputChange "zzz") = Ok (st', rows).
Proof.
  apply (only_commits_throw sample sampleKeys pendingMethod
           (TextInputChange "zzz")).
  - exact sample_typed.
  - reflexivity.
  - intros k Hk. simpl in *.
    destruct Hk as [<-|[<-|[<-|[<-|[<-|[]]]]]]; auto 6.
  - apply (sample_reachable [TextInputChange "me"; KeyDown Enter]).
    vm_compute. reflexivity.
  - reflexivity.
Defined.

(** ** The filter effect in the mounted component *)




